(** * audio_synthesizer: a shallow embedding of [Synth] and its properties

    The development follows [src/audio_synthesizer.py]: the markup scan of
    [phrase_to_words], the index remapping of [__init__], the boundary policy
    of [words_to_phones], [phones_to_diphones], the path slicing of
    [load_diphone_data] and the assembly loop of [diphones_to_wav].

    Python values are modelled as follows: [str] is [string] (a string of
    bytes; the punctuation, digit and separator characters the code tests
    for are all ASCII), [int] is [Z], a [list] is a [list], a [dict] with
    string keys is a [gmap string _], an exception is a value of [exn]
    carried by [result]. *)

From Stdlib Require Import ZArith QArith Qcanon Lia.
From stdpp Require Import base numbers list strings gmap.

Local Close Scope Qc_scope.
Local Close Scope Q_scope.
Local Open Scope string_scope.
Local Open Scope list_scope.

(** ** Exceptions and the result monad *)

Inductive exn : Type :=
  | SystemExit_word (word : string)       (* sys.exit of words_to_phones *)
  | SystemExit_diphone (diphone : string) (* sys.exit of diphones_to_wav *)
  | KeyError (key : string)
  | IndexError
  | ValueError
  | NameError.

Inductive result (A : Type) : Type :=
  | Ok (a : A)
  | Raise (e : exn).
Arguments Ok {A} a.
Arguments Raise {A} e.

Definition bind {A B} (m : result A) (k : A -> result B) : result B :=
  match m with
  | Ok a => k a
  | Raise e => Raise e
  end.

Notation "'let*' x ':=' m 'in' k" := (bind m (fun x => k))
  (at level 10, x name, m at level 100, k at level 200).

Definition is_Ok {A} (m : result A) : Prop := ∃ a, m = Ok a.

(** ** Python sequence primitives *)

Module Py.

(** [l[k]]: a negative index counts from the end; out of range raises. *)
Definition index {A} (l : list A) (k : Z) : result A :=
  let k' := if (k <? 0)%Z then (k + Z.of_nat (length l))%Z else k in
  if (k' <? 0)%Z then Raise IndexError
  else match l !! Z.to_nat k' with
       | Some x => Ok x
       | None => Raise IndexError
       end.

(** A slice bound: negative bounds count from the end, then the bound is
    clamped to [0, len]. *)
Definition bound (len : nat) (k : Z) : nat :=
  let k' := if (k <? 0)%Z then (k + Z.of_nat len)%Z else k in
  Z.to_nat (Z.min (Z.max k' 0) (Z.of_nat len)).

(** [l[lo:hi]] with step 1; [None] is an omitted bound. *)
Definition slice {A} (lo hi : option Z) (l : list A) : list A :=
  let n := length l in
  let a := from_option (bound n) 0 lo in
  let b := from_option (bound n) n hi in
  take (b - a) (drop a l).

(** [needle in hay] on strings: the substring test. *)
Fixpoint str_in (needle hay : string) : bool :=
  String.prefix needle hay
  || match hay with
     | EmptyString => false
     | String _ hay' => str_in needle hay'
     end.

(** [x in l] on a list of ints. *)
Definition int_in (x : Z) (l : list Z) : bool := bool_decide (x ∈ l).

(** [sum(l)]. *)
Definition sum (l : list Z) : Z := foldr Z.add 0%Z l.

(** [d[k]] on a dict. *)
Definition getitem {V} (d : gmap string V) (k : string) : result V :=
  match d !! k with
  | Some v => Ok v
  | None => Raise (KeyError k)
  end.

(** [for i, x in enumerate(l)] threading a state, without exceptions. *)
Fixpoint for_enumerate {A St} (body : nat -> A -> St -> St)
    (i : nat) (l : list A) (s : St) : St :=
  match l with
  | [] => s
  | x :: l' => for_enumerate body (S i) l' (body i x s)
  end.

(** The same loop when the body may raise: the first exception ends it. *)
Fixpoint for_enumerateM {A St} (body : nat -> A -> St -> result St)
    (i : nat) (l : list A) (s : St) : result St :=
  match l with
  | [] => Ok s
  | x :: l' => let* s' := body i x s in for_enumerateM body (S i) l' s'
  end.

(** The characters of a string, each as a one-character string. *)
Fixpoint chars (s : string) : list string :=
  match s with
  | EmptyString => []
  | String c s' => String c EmptyString :: chars s'
  end.

(** [''.join(l)]. *)
Definition join (l : list string) : string := foldr String.append "" l.

(** [s[lo:hi]] on a string. *)
Definition str_slice (lo hi : option Z) (s : string) : string :=
  String.string_of_list_ascii (slice lo hi (String.list_ascii_of_string s)).

(** [range(n)]. *)
Definition range (n : Z) : list nat := seq 0 (Z.to_nat n).

(** A list comprehension whose element expression may raise. *)
Fixpoint mapM {A B} (f : A -> result B) (l : list A) : result (list B) :=
  match l with
  | [] => Ok []
  | x :: l' => let* y := f x in let* ys := mapM f l' in Ok (y :: ys)
  end.

(** [string.punctuation]. *)
Definition punctuation : string :=
  "!" +:+ String (Ascii.ascii_of_nat 34) "#$%&'()*+,-./:;<=>?@[\]^_`{|}~".

(** [c.isdigit()] on one byte. *)
Definition isdigit (c : Ascii.ascii) : bool :=
  let n := Ascii.nat_of_ascii c in (48 <=? n)%nat && (n <=? 57)%nat.

End Py.

(** ** Constants of the module (lines 18-23) *)

Definition RATE : Z := 16000.
Definition ms400 : nat := Z.to_nat 6400.   (* int(RATE*0.4) *)
Definition ms200 : nat := Z.to_nat 3200.   (* int(RATE*0.2) *)
Definition ms10 : nat := 160.              (* int(RATE*0.01) *)

(** ** The punctuation and emphasis index lists of an utterance *)

Record indices : Type := Indices {
  commas : list Z;
  stops : list Z;
  marks : list Z
}.

Definition no_indices : indices := Indices [] [] [].

Definition map_indices (f : Z -> Z) (ix : indices) : indices :=
  Indices (f <$> commas ix) (f <$> stops ix) (f <$> marks ix).

Inductive reverse_mode : Type := rev_words | rev_phones | rev_signal.

Section Synth.

(** ** Markup extraction: [phrase_to_words] and the head of [__init__] *)

(** External collaborators: [str.lower] and nltk's [word_tokenize]. *)
Variable lower : string -> string.
Variable word_tokenize : string -> list string.

(** [temp = ["."] * (len(tokens)*2-1); temp[0::2] = tokens] (lines 172-174). *)
Definition interleave_stops (tokens : list string) : list string :=
  let temp := replicate (Z.to_nat (Z.of_nat (length tokens) * 2 - 1)) "." in
  Py.for_enumerate (fun k tok t => <[(2 * k)%nat := tok]> t) 0 tokens temp.

(** The body of the [try] block (lines 179-186) for token [i]. The state is
    the three lists and [counter]. *)
Definition scan_body (tokens : list string) (i : nat) (word : string)
    (st : indices * Z) : result (indices * Z) :=
  let '(ix, counter) := st in
  let zi := Z.of_nat i in
  let prev_is_pause :=
    let* prev := Py.index tokens (zi - 1) in Ok (Py.str_in prev "...,;?!") in
  let* c1 :=
    if Py.str_in word ","
    then let* p := prev_is_pause in Ok (negb p && (0 <? zi)%Z)
    else Ok false in
  let* ix' :=
    if (c1 : bool) then
      Ok (Indices (commas ix ++ [(zi - counter - 1)%Z]) (stops ix) (marks ix))
    else
      let* c2 :=
        if Py.str_in word "...;?!"
        then let* p := prev_is_pause in Ok (negb p && (0 <? zi)%Z)
        else Ok false in
      if (c2 : bool) then
        Ok (Indices (commas ix) (stops ix ++ [(zi - counter - 1)%Z]) (marks ix))
      else
        let* c3 :=
          if Py.str_in word "{"
          then let* nxt := Py.index tokens (zi + 2) in Ok (Py.str_in nxt "}")
          else Ok false in
        if (c3 : bool) then
          Ok (Indices (commas ix) (stops ix) (marks ix ++ [(zi - counter)%Z]))
        else Ok ix in
  Ok (ix', if Py.str_in word Py.punctuation || Py.str_in word "..."
           then (counter + 1)%Z else counter).

(** One iteration with its [except IndexError: pass]: the exception leaves
    the state as it was, any other exception goes on. *)
Definition scan_step (tokens : list string) (i : nat) (word : string)
    (st : indices * Z) : result (indices * Z) :=
  match scan_body tokens i word st with
  | Ok st' => Ok st'
  | Raise IndexError => Ok st
  | Raise e => Raise e
  end.

(** The loop of lines 176-189, from the lists the object holds. *)
Definition scan_tokens (tokens : list string) (ix : indices) : result indices :=
  let* st := Py.for_enumerateM (scan_step tokens) 0 tokens (ix, 0%Z) in Ok (fst st).

(** [phrase_to_words]: the updated lists and the returned words. *)
Definition phrase_to_words (phrase : string) (spell : bool) (ix : indices)
    : result (indices * list string) :=
  let p_lower := lower phrase in
  let tokens_with_punc := word_tokenize p_lower in
  let tokens_with_punc :=
    if spell then interleave_stops tokens_with_punc else tokens_with_punc in
  let* ix' := scan_tokens tokens_with_punc ix in
  let letters :=
    filter (fun l => negb (Py.str_in l Py.punctuation) = true) (Py.chars p_lower) in
  let p_norm := Py.join letters in
  Ok (ix', word_tokenize p_norm).

(** [words_to_letters] (line 211). *)
Definition words_to_letters (words : list string) : list string :=
  concat (Py.chars <$> words).

(** [sum(self.word_lengths[0:i+1])-1] (lines 109-111). *)
Definition spell_index (word_lengths : list Z) (i : Z) : Z :=
  (Py.sum (Py.slice (Some 0%Z) (Some (i + 1)%Z) word_lengths) - 1)%Z.

(** The block under [if self.spell] (lines 106-111). *)
Definition spell_step (words : list string) (ix : indices)
    : list string * indices :=
  let word_lengths := (fun w => Z.of_nat (String.length w)) <$> words in
  (words_to_letters words, map_indices (spell_index word_lengths) ix).

(** [len(self.words)-1-i] (lines 117-119 and 134-136). *)
Definition reverse_index (words : list string) (i : Z) : Z :=
  (Z.of_nat (length words) - 1 - i)%Z.

(** [__init__] up to the call of [words_to_phones] (lines 96-125). *)
Definition init_markup (phrase : string) (spell : bool)
    (reverse : option reverse_mode) : result (list string * indices) :=
  let* r := phrase_to_words phrase spell no_indices in
  let '(ix, words) := r in
  let '(words, ix) := if spell then spell_step words ix else (words, ix) in
  let '(words, ix) :=
    match reverse with
    | Some rev_words =>
        let words' := rev words in
        (words', map_indices (reverse_index words') ix)
    | _ => (words, ix)
    end in
  let ix := if bool_decide (reverse ≠ None) && spell then no_indices else ix in
  Ok (words, ix).



(** ** Phoneme sequencing: [words_to_phones] and [preprocess_phones] *)

(** External collaborator: [cmudict.dict()], a word's pronunciations. *)
Variable cmudict : gmap string (list (list string)).

(** [''.join(l for l in phone if not l.isdigit())] (line 270). *)
Fixpoint strip_digits (phone : string) : string :=
  match phone with
  | EmptyString => EmptyString
  | String c phone' =>
      if Py.isdigit c then strip_digits phone' else String c (strip_digits phone')
  end.

(** [preprocess_phones] (lines 267-275). *)
Definition preprocess_phones (pre_word : list string) : list string :=
  (fun phone => lower (strip_digits phone)) <$> pre_word.

(** [i in self.commas or i in self.stops]. *)
Definition paused (ix : indices) (i : nat) : bool :=
  Py.int_in (Z.of_nat i) (commas ix) || Py.int_in (Z.of_nat i) (stops ix).

(** [self.preprocess_phones(cmudict.dict()[self.words[i+1]][0])[0]]. *)
Definition next_first_phone (words : list string) (i : nat) : result string :=
  let* next_word := Py.index words (Z.of_nat i + 1) in
  let* prons := Py.getitem cmudict next_word in
  let* pron := Py.index prons 0 in
  Py.index (preprocess_phones pron) 0.

(** The body of the loop of [words_to_phones] (lines 230-246); the state is
    the list [phones]. *)
Definition words_to_phones_body (words : list string) (ix : indices)
    (i : nat) (word : string) (phones : list (list string))
    : result (list (list string)) :=
  match cmudict !! word with
  | None => Raise (SystemExit_word word)
  | Some prons =>
      let* pron := Py.index prons 0 in
      let word_phones := preprocess_phones pron in
      if (length words =? 1)%nat then
        Ok (phones ++ [["pau"] ++ word_phones ++ ["pau"]])
      else if (i =? 0)%nat && negb (paused ix i) then
        let* nxt := next_first_phone words i in
        Ok (phones ++ [["pau"] ++ word_phones ++ [nxt]])
      else if (i =? 0)%nat && paused ix i then
        Ok (phones ++ [["pau"] ++ word_phones ++ ["pau"]])
      else if paused ix i || (Z.of_nat i =? Z.of_nat (length words) - 1)%Z then
        Ok (phones ++ [word_phones ++ ["pau"]])
      else
        let* nxt := next_first_phone words i in
        Ok (phones ++ [word_phones ++ [nxt]])
  end.

Definition words_to_phones (words : list string) (ix : indices)
    : result (list (list string)) :=
  Py.for_enumerateM (words_to_phones_body words ix) 0 words [].

(** ** Diphone decomposition: [phones_to_diphones] *)

(** [[word[i] + '-' + word[i+1] for i in range(len(word)-1)]] (line 292). *)
Definition word_diphones (word : list string) : result (list string) :=
  Py.mapM (fun i : nat =>
             let* a := Py.index word (Z.of_nat i) in
             let* b := Py.index word (Z.of_nat i + 1) in
             Ok (a +:+ "-" +:+ b))
          (Py.range (Z.of_nat (length word) - 1)).

Definition phones_to_diphones (phones : list (list string))
    : result (list (list string)) :=
  Py.mapM word_diphones phones.

(** ** The unit table: [load_diphone_data] *)

(** External collaborator: the paths [str(item)] of the [*.wav] files that
    [Path(wav_folder).glob] yields, in its order. *)
Variable glob_wav : string -> list string.

(** [wav_file[9:-4]] (line 320). *)
Definition diphone_key (wav_file : string) : string :=
  Py.str_slice (Some 9%Z) (Some (-4)%Z) wav_file.

Definition load_diphone_data (wav_folder : string) : gmap string string :=
  foldl (fun diphones_dict wav_file => <[diphone_key wav_file := wav_file]> diphones_dict)
        ∅ (glob_wav wav_folder).

(** ** Audio assembly: [diphones_to_wav] *)

(** External collaborators of the [simpleaudio.Audio] objects: the samples
    [Audio.load] reads from a wav file, and [Audio.rescale]. *)
Variable load : string -> list Z.
Variable rescale : Qc -> list Z -> result (list Z).

(** Sample [k] of [cur*tapering + prev*tapering[::-1]] as it is stored back
    into the integer array; [tapering[k]] is [k/ms10]. The floating-point
    product and its conversion are left to this parameter. *)
Variable taper : nat -> Z -> Z -> Z.

(** Modelled from the spec: the fixed silence buffers. The source builds them
    with [Audio.create_tone(0, n, 0)], which is not under src; the spec's
    [makeSilence] gives a silent buffer of the given number of samples. *)
Definition silence (n : nat) : list Z := replicate n 0%Z.

(** numpy broadcasting of a one-dimensional operand against shape [(n,)]. *)
Definition broadcast (l : list Z) (n : nat) : result (list Z) :=
  if (length l =? n)%nat then Ok l
  else match l with
       | [x] => Ok (replicate n x)
       | _ => Raise ValueError
       end.

(** Line 370: [data[0:ms10] = data[0:ms10]*tapering + prev*tapering[::-1]].
    The assignment needs the computed window to fit the sliced one. *)
Definition taper_head (data prev : list Z) : result (list Z) :=
  let head := Py.slice (Some 0%Z) (Some (Z.of_nat ms10)) data in
  let* cur := broadcast head ms10 in
  let* prv := broadcast prev ms10 in
  let window := imap (fun k cp => taper k cp.1 cp.2) (zip cur prv) in
  if (length window =? length head)%nat
  then Ok (window ++ drop (length head) data)
  else Raise ValueError.

(** The body of the inner loop (lines 358-378) for diphone [j] of word [i].
    The state is [word_audio.data] and [prev_diphone_last_10ms], which is
    unbound until its first assignment. *)
Definition diphone_body (diphones_dict : gmap string string) (crossfade : bool)
    (n_words : nat) (i : nat) (word : list string) (j : nat) (diphone : string)
    (st : list Z * option (list Z)) : result (list Z * option (list Z)) :=
  let '(word_audio, prev) := st in
  match diphones_dict !! diphone with
  | None => Raise (SystemExit_diphone diphone)
  | Some wav_file =>
      let data := load wav_file in
      let* r :=
        if crossfade then
          let* data :=
            if negb (j =? 0)%nat then
              match prev with
              | Some p => taper_head data p
              | None => Raise NameError
              end
            else Ok data in
          if negb ((Z.of_nat j =? Z.of_nat (length word) - 1)%Z
                   && (Z.of_nat i =? Z.of_nat n_words - 1)%Z)
          then Ok (Py.slice (Some 0%Z) (Some (- Z.of_nat ms10)%Z) data,
                   Some (Py.slice (Some (- Z.of_nat ms10)%Z) None data))
          else Ok (data, prev)
        else Ok (data, prev) in
      Ok (word_audio ++ r.1, r.2)
  end.

(** The buffer of word [i] when its diphone loop is over (lines 355-378),
    and the tail the loop leaves behind. *)
Definition word_units (diphones_dict : gmap string string) (crossfade : bool)
    (n_words : nat) (i : nat) (word : list string) (prev : option (list Z))
    : result (list Z * option (list Z)) :=
  Py.for_enumerateM (diphone_body diphones_dict crossfade n_words i word)
                    0 word ([], prev).

(** Lines 381-386: the pauses after word [i]. *)
Definition word_pauses (ix : indices) (i : nat) (word_audio : list Z) : list Z :=
  let word_audio :=
    if Py.int_in (Z.of_nat i) (commas ix)
    then word_audio ++ silence ms200 else word_audio in
  if Py.int_in (Z.of_nat i) (stops ix)
  then word_audio ++ silence ms400 else word_audio.

(** Lines 387-389: the emphasis of word [i]. *)
Definition word_emphasis (ix : indices) (i : nat) (word_audio : list Z)
    : result (list Z) :=
  if Py.int_in (Z.of_nat i) (marks ix)
  then rescale 1%Qc word_audio else Ok word_audio.

(** The body of the outer loop (lines 354-392); the state is
    [synth_audio.data] and [prev_diphone_last_10ms]. *)
Definition word_body (diphones_dict : gmap string string) (crossfade : bool)
    (ix : indices) (n_words : nat) (i : nat) (word : list string)
    (st : list Z * option (list Z)) : result (list Z * option (list Z)) :=
  let '(synth_audio, prev) := st in
  let* r := word_units diphones_dict crossfade n_words i word prev in
  let* word_audio := word_emphasis ix i (word_pauses ix i r.1) in
  Ok (synth_audio ++ word_audio, r.2).

(** [self.volume*0.01], as the exact fraction [volume/100]; the floating-point
    product is exactly 1.0 for volume 100. *)
Definition volume_factor (volume : Z) : Qc := Q2Qc (inject_Z volume * (1 # 100)).

(** Lines 394-396. *)
Definition apply_volume (volume : option Z) (synth_audio : list Z)
    : result (list Z) :=
  match volume with
  | Some v => rescale (volume_factor v) synth_audio
  | None => Ok synth_audio
  end.

(** [diphones_to_wav]: the samples of the returned object. Playing and
    saving (lines 402-409) do not change them. *)
Definition diphones_to_wav (diphones : list (list string))
    (diphones_dict : gmap string string) (ix : indices) (crossfade : bool)
    (volume : option Z) (reverse : option reverse_mode) : result (list Z) :=
  let* st := Py.for_enumerateM
               (word_body diphones_dict crossfade ix (length diphones))
               0 diphones ([], None) in
  let* synth_audio := apply_volume volume st.1 in
  Ok (match reverse with
      | Some rev_signal => rev synth_audio
      | _ => synth_audio
      end).

(** ** The constructor [__init__] *)

Record args : Type := Args {
  arg_spell : bool;
  arg_reverse : option reverse_mode;
  arg_volume : option Z;
  arg_diphones : string;
  arg_crossfade : bool
}.

(** [Synth(args, phrase)]: the samples of [self.out], or the exception that
    ends the construction. *)
Definition Synth_init (a : args) (phrase : string) : result (list Z) :=
  let* m := init_markup phrase (arg_spell a) (arg_reverse a) in
  let '(words, ix) := m in
  let* phones := words_to_phones words ix in
  let '(phones, ix) :=
    match arg_reverse a with
    | Some rev_phones =>
        ((fun word => rev word) <$> rev phones, map_indices (reverse_index words) ix)
    | _ => (phones, ix)
    end in
  let* diphones := phones_to_diphones phones in
  let diphones_dict := load_diphone_data (arg_diphones a) in
  diphones_to_wav diphones diphones_dict ix (arg_crossfade a)
                  (arg_volume a) (arg_reverse a).

End Synth.


(** ** Stand-ins for the external collaborators

    Concrete instances of the parameters, used to run the definitions on
    examples. *)

Module Fixture.

(** ASCII lower-casing. *)
Definition lower_ascii (c : Ascii.ascii) : Ascii.ascii :=
  let n := Ascii.nat_of_ascii c in
  if (65 <=? n)%nat && (n <=? 90)%nat then Ascii.ascii_of_nat (n + 32) else c.

Fixpoint lower (s : string) : string :=
  match s with
  | EmptyString => EmptyString
  | String c s' => String (lower_ascii c) (lower s')
  end.

(** A tokenizer that splits at blanks and isolates every punctuation
    character; [cur] is the word being read, reversed. *)
Definition flush (cur : list Ascii.ascii) : list string :=
  match cur with
  | [] => []
  | _ => [String.string_of_list_ascii (rev cur)]
  end.

Fixpoint tokenize_from (cur : list Ascii.ascii) (s : string) : list string :=
  match s with
  | EmptyString => flush cur
  | String c s' =>
      if Ascii.eqb c (Ascii.ascii_of_nat 32) then flush cur ++ tokenize_from [] s'
      else if Py.str_in (String c EmptyString) Py.punctuation
      then flush cur ++ String c EmptyString :: tokenize_from [] s'
      else tokenize_from (c :: cur) s'
  end.

Definition word_tokenize (s : string) : list string := tokenize_from [] s.

(** A few entries of the pronouncing dictionary. *)
Definition cmudict : gmap string (list (list string)) :=
  {[ "i" := [["AY1"]];
     "a" := [["AH0"]; ["EY1"]];
     "am" := [["AE1"; "M"]; ["AH0"; "M"]];
     "hello" := [["HH"; "AH0"; "L"; "OW1"]; ["HH"; "EH0"; "L"; "OW1"]];
     "world" := [["W"; "ER1"; "L"; "D"]] ]}.

(** A unit folder with the four diphones of the phrase [i am]. *)
Definition glob_wav (wav_folder : string) : list string :=
  if String.eqb wav_folder "./diphones"
  then ["diphones/pau-ay.wav"; "diphones/ay-ae.wav";
        "diphones/ae-m.wav"; "diphones/m-pau.wav"]
  else [].

(** Units of 200 samples, constant and different for each file. *)
Definition load (wav_file : string) : list Z :=
  if String.eqb wav_file "diphones/pau-ay.wav" then replicate 200 1000%Z
  else if String.eqb wav_file "diphones/ay-ae.wav" then replicate 200 2000%Z
  else if String.eqb wav_file "diphones/ae-m.wav" then replicate 200 3000%Z
  else replicate 200 4000%Z.

(** The linear cross-fade in exact arithmetic, truncated. *)
Definition taper (k : nat) (cur prev : Z) : Z :=
  ((cur * Z.of_nat k + prev * (159 - Z.of_nat k)) ÷ 160)%Z.

End Fixture.

(** ** Reference definitions, worded as the specification words them *)

Module Spec.

(** The labels [p0-p1, p1-p2, ..., p(k-1)-pk] of a phoneme list. *)
Fixpoint adjacent_labels (word : list string) : list string :=
  match word with
  | [] => []
  | p :: rest =>
      match rest with
      | [] => []
      | q :: _ => (p +:+ "-" +:+ q) :: adjacent_labels rest
      end
  end.

Section Policy.

Variable lower : string -> string.
Variable cmudict : gmap string (list (list string)).

(** [phones(word)]: the dictionary lookup with stress digits stripped and
    case lowered; undefined for a word without an entry. *)
Definition phones (word : string) : option (list string) :=
  prons ← cmudict !! word;
  pron ← prons !! 0%nat;
  Some (preprocess_phones lower pron).

Definition firstPhone (ph : list string) : option string := ph !! 0%nat.

(** Position [i] is in the comma or the stop set. *)
Definition in_pause_set (ix : indices) (i : nat) : Prop :=
  Z.of_nat i ∈ commas ix ∨ Z.of_nat i ∈ stops ix.

(** The boundary policy for the word at position [i] among [N] words, its
    five cases in the order the specification lists them. *)
Definition boundary_policy (words : list string) (ix : indices) (i : nat)
    : option (list string) :=
  let N := length words in
  let next : option string :=
    next_word ← words !! (i + 1)%nat; next_ph ← phones next_word; firstPhone next_ph in
  word ← words !! i;
  ph ← phones word;
  if decide (N = 1%nat) then
    Some (["pau"] ++ ph ++ ["pau"])
  else if decide (i = 0%nat ∧ ¬ in_pause_set ix i) then
    f ← next; Some (["pau"] ++ ph ++ [f])
  else if decide (i = 0%nat ∧ in_pause_set ix i) then
    Some (["pau"] ++ ph ++ ["pau"])
  else if decide (in_pause_set ix i ∨ i = (N - 1)%nat) then
    Some (ph ++ ["pau"])
  else
    f ← next; Some (ph ++ [f]).

End Policy.

(** The sum of the lengths of the units of a word. *)
Definition total_samples (units : list (list Z)) : Z :=
  Py.sum ((fun u => Z.of_nat (length u)) <$> units).

(** The crossfade count as the specification states it, for the word at
    position [i] with diphone labels [word] whose units are [units]: the
    buffer of the word holds the unit lengths less 160 samples for each
    diphone but one. *)
Definition crossfade_count (load : string -> list Z) (taper : nat -> Z -> Z -> Z)
    (diphones_dict : gmap string string) (n_words i : nat)
    (word : list string) (units : list (list Z)) : Prop :=
  ∀ prev buf prev',
    word_units load taper diphones_dict true n_words i word prev = Ok (buf, prev') →
    Z.of_nat (length buf)
    = (total_samples units - 160 * (Z.of_nat (length word) - 1))%Z.

(** The pause after word [i] as the specification states it: the stop
    silence if [i] is in the stop set, else the comma silence if it is in
    the comma set. *)
Definition pause_after (ix : indices) (i : nat) : list Z :=
  if decide (Z.of_nat i ∈ stops ix) then silence ms400
  else if decide (Z.of_nat i ∈ commas ix) then silence ms200
  else [].

(** Modelled from the spec: [Audio.rescale] of the audio primitives, which is
    not under src. The source calls it as [rescale(1)] on an emphasised word
    with the comment "increase volume to max", and the specification
    describes that call: it computes the factor that brings the loudest
    sample of the buffer to the full-scale value, then applies it uniformly.
    [val] is the fraction of full scale the loudest sample is brought to;
    a buffer without a loudest sample is left as it is. *)
Definition peak (data : list Z) : Z := foldr (fun s m => Z.max (Z.abs s) m) 0%Z data.

Definition truncate (q : Qc) : Z := (Qnum (this q) ÷ Zpos (Qden (this q)))%Z.

Definition rescale (full_scale : Z) (val : Qc) (data : list Z) : result (list Z) :=
  if (peak data =? 0)%Z then Ok data
  else
    let rescale_factor :=
      (val * Q2Qc (inject_Z full_scale) / Q2Qc (inject_Z (peak data)))%Qc in
    Ok ((fun s => truncate (Q2Qc (inject_Z s) * rescale_factor)%Qc) <$> data).

End Spec.

(** ** Auxiliary definitions for the proofs *)

(** The value a run returns, if it returns one. *)
Definition to_option {A} (m : result A) : option A :=
  match m with
  | Ok a => Some a
  | Raise _ => None
  end.

(** The tail a unit leaves for the next one is a full 10 ms window. *)
Definition full_tail (prev : option (list Z)) : Prop :=
  ∃ p, prev = Some p ∧ length p = ms10.

(** Diphone [j] of word [i] is the last unit of the utterance. *)
Definition final_unit (n_words i : nat) (word : list string) (j : nat) : bool :=
  (Z.of_nat j =? Z.of_nat (length word) - 1)%Z
  && (Z.of_nat i =? Z.of_nat n_words - 1)%Z.

(** The samples the units [j, j+1, ...] of a word of [wlen] diphones add to
    its buffer. *)
Fixpoint kept_samples (last_word : bool) (wlen j : nat) (units : list (list Z)) : Z :=
  match units with
  | [] => 0
  | u :: units' =>
      ((if last_word && (S j =? wlen)%nat
        then Z.of_nat (length u) else Z.of_nat (length u) - Z.of_nat ms10)
       + kept_samples last_word wlen (S j) units')%Z
  end.

(** [units] are the samples of the wav files of the labels [word], each at
    least 10 ms long. *)
Definition loaded_units (load : string -> list Z)
    (diphones_dict : gmap string string)
    (word : list string) (units : list (list Z)) : Prop :=
  Forall2 (fun diphone u =>
             ∃ wav_file, diphones_dict !! diphone = Some wav_file
                         ∧ load wav_file = u ∧ (ms10 ≤ length u)%nat)
          word units.

(** ** The program: [validate_volume] and the [__main__] block *)

(** What ends the program: the exit of [validate_volume], or an exception
    of a [Synth(...)] construction. *)
Inductive main_exn : Type :=
  | SystemExit_volume
  | Synth_raised (e : exn).

Inductive outcome (A : Type) : Type :=
  | Finished (a : A)
  | Aborted (e : main_exn).
Arguments Finished {A} a.
Arguments Aborted {A} e.

(** The text to speak after [process_commandline], which accepts a phrase
    or [--fromfile] and not both. *)
Inductive source : Type :=
  | Phrase (phrase : string)
  | FromFile (file : string).

Section Main.

Variable lower : string -> string.
Variable word_tokenize : string -> list string.
Variable cmudict : gmap string (list (list string)).
Variable glob_wav : string -> list string.
Variable load : string -> list Z.
Variable rescale : Qc -> list Z -> result (list Z).
Variable taper : nat -> Z -> Z -> Z.

(** External collaborator: [read_from_file], the sentences that nltk's
    [sent_tokenize] finds in the text of a file. *)
Variable read_from_file : string -> list string.

(** [validate_volume] (lines 485-486). *)
Definition validate_volume (volume : Z) : outcome unit :=
  if (volume <? 0)%Z || (100 <? volume)%Z
  then Aborted SystemExit_volume else Finished tt.

(** [Synth(args=args, phrase=...)] as the [__main__] block sees it. *)
Definition Synth (a : args) (phrase : string) : outcome (list Z) :=
  match Synth_init lower word_tokenize cmudict glob_wav load rescale taper a phrase with
  | Ok out => Finished out
  | Raise e => Aborted (Synth_raised e)
  end.

(** The loop of lines 502-503: each sentence is synthesised, nothing kept. *)
Fixpoint speak_sentences (a : args) (sentences : list string) : outcome unit :=
  match sentences with
  | [] => Finished tt
  | sentence :: sentences' =>
      match Synth a sentence with
      | Finished _ => speak_sentences a sentences'
      | Aborted e => Aborted e
      end
  end.

(** The loop of lines 507-509; the state is [out.data]. *)
Fixpoint collect_sentences (a : args) (sentences : list string) (out : list Z)
    : outcome (list Z) :=
  match sentences with
  | [] => Finished out
  | sentence :: sentences' =>
      match Synth a sentence with
      | Finished data => collect_sentences a sentences' (out ++ data)
      | Aborted e => Aborted e
      end
  end.

(** The [__main__] block (lines 489-511): the file that is saved and its
    samples, if one is saved. With a phrase the save is that of
    [diphones_to_wav] (lines 407-408). *)
Definition main (a : args) (src : source) (outfile : option string)
    : outcome (option (string * list Z)) :=
  match (match arg_volume a with
         | Some volume => validate_volume volume
         | None => Finished tt
         end) with
  | Aborted e => Aborted e
  | Finished _ =>
      match src with
      | Phrase phrase =>
          match Synth a phrase with
          | Finished out => Finished ((fun file => (file, out)) <$> outfile)
          | Aborted e => Aborted e
          end
      | FromFile file =>
          match outfile with
          | None =>
              match speak_sentences a (read_from_file file) with
              | Finished _ => Finished None
              | Aborted e => Aborted e
              end
          | Some saved =>
              match collect_sentences a (read_from_file file) [] with
              | Finished out => Finished (Some (saved, out))
              | Aborted e => Aborted e
              end
          end
      end
  end.

End Main.

(** ** Conditions on the collaborators *)

(** Every entry of the dictionary has a first pronunciation with a phone. *)
Definition entries_pronounced (cmudict : gmap string (list (list string))) : Prop :=
  ∀ w prons, cmudict !! w = Some prons → ∃ p ps more, prons = (p :: ps) :: more.

(** ** Tests of the scan, named *)

(** [word in string.punctuation or word in "..."]: the token moves [counter]. *)
Definition counted (word : string) : bool :=
  Py.str_in word Py.punctuation || Py.str_in word "...".

(** [word in "...,;?!"]: the token is one of the marks that stand for a pause. *)
Definition pause_mark (word : string) : bool := Py.str_in word "...,;?!".

(** * Properties *)

(** ** Python primitives *)

Lemma index_nat {A} (l : list A) (i : nat) :
  Py.index l (Z.of_nat i)
  = match l !! i with Some x => Ok x | None => Raise IndexError end.
Proof.
  unfold Py.index. cbv zeta.
  assert ((Z.of_nat i <? 0)%Z = false) as Hi by (apply Z.ltb_ge; lia).
  rewrite Hi. cbv iota. rewrite Hi. by rewrite Nat2Z.id.
Qed.

Lemma index_succ {A} (l : list A) (i : nat) :
  Py.index l (Z.of_nat i + 1)
  = match l !! S i with Some x => Ok x | None => Raise IndexError end.
Proof.
  replace (Z.of_nat i + 1)%Z with (Z.of_nat (S i)) by lia. apply index_nat.
Qed.

Lemma mapM_app {A B} (f : A -> result B) (l1 l2 : list A) :
  Py.mapM f (l1 ++ l2)
  = (let* ys1 := Py.mapM f l1 in let* ys2 := Py.mapM f l2 in Ok (ys1 ++ ys2)).
Proof.
  induction l1 as [|x l1 IH]; simpl.
  - by destruct (Py.mapM f l2).
  - destruct (f x); simpl; [|done]. rewrite IH.
    destruct (Py.mapM f l1); simpl; [|done]. by destruct (Py.mapM f l2).
Qed.

Lemma mapM_pure {A B} (f : A -> result B) (g : A -> B) (l : list A) :
  (∀ x, x ∈ l → f x = Ok (g x)) → Py.mapM f l = Ok (g <$> l).
Proof.
  induction l as [|x l IH]; intros Hf; simpl; [done|].
  rewrite Hf by left. simpl. rewrite IH; [done|].
  intros y Hy. apply Hf. by right.
Qed.

(** ** Diphone decomposition *)

(** The comprehension over the tail of a word, read at its offset in the
    whole word. *)
Lemma word_diphones_from (pre word : list string) :
  Py.mapM (fun i : nat =>
             let* a := Py.index (pre ++ word) (Z.of_nat i) in
             let* b := Py.index (pre ++ word) (Z.of_nat i + 1) in
             Ok (a +:+ "-" +:+ b))
          (seq (length pre) (length word - 1))
  = Ok (Spec.adjacent_labels word).
Proof.
  revert pre. induction word as [|p rest IH]; intros pre; [done|].
  destruct rest as [|q rest']; [done|].
  replace (length (p :: q :: rest') - 1)%nat with (S (length (q :: rest') - 1))
    by (simpl; lia).
  cbn [seq Py.mapM].
  rewrite index_nat, index_succ.
  rewrite (lookup_app_r pre) by lia. rewrite Nat.sub_diag. cbn [lookup list_lookup].
  rewrite (lookup_app_r pre) by lia.
  replace (S (length pre) - length pre)%nat with 1%nat by lia.
  cbn [lookup list_lookup bind].
  specialize (IH (pre ++ [p])).
  rewrite <- app_assoc in IH. cbn [app] in IH.
  rewrite length_app in IH. cbn [length] in IH.
  replace (length pre + 1)%nat with (S (length pre)) in IH by lia.
  change (length (q :: rest') - 1)%nat with (S (length rest') - 1)%nat.
  rewrite IH. reflexivity.
Qed.

Lemma word_diphones_spec (word : list string) :
  word_diphones word = Ok (Spec.adjacent_labels word).
Proof.
  unfold word_diphones, Py.range.
  replace (Z.to_nat (Z.of_nat (length word) - 1)) with (length word - 1)%nat by lia.
  apply (word_diphones_from [] word).
Qed.

Lemma adjacent_labels_length (word : list string) :
  length (Spec.adjacent_labels word) = (length word - 1)%nat.
Proof.
  induction word as [|p rest IH]; [done|].
  destruct rest as [|q rest']; [done|].
  change (Spec.adjacent_labels (p :: q :: rest'))
    with ((p +:+ "-" +:+ q) :: Spec.adjacent_labels (q :: rest')).
  rewrite length_cons, IH. simpl. lia.
Qed.

Lemma adjacent_labels_lookup (word : list string) (i : nat) (p q : string) :
  word !! i = Some p → word !! S i = Some q →
  Spec.adjacent_labels word !! i = Some (p +:+ "-" +:+ q).
Proof.
  revert i. induction word as [|a rest IH]; intros i Hp Hq; [done|].
  destruct rest as [|b rest']; [done|].
  destruct i as [|i]; simpl in *.
  - by simplify_eq.
  - by apply IH.
Qed.

(** C2: [phones_to_diphones] never raises and gives, for each word
    [p0, ..., pk], exactly the labels [p0-p1, ..., p(k-1)-pk] in that order:
    one label less than there are phonemes, label [i] joining phonemes [i]
    and [i+1], and none for a word with fewer than two phonemes. *)
Theorem phones_to_diphones_adjacent (phones : list (list string)) :
  phones_to_diphones phones = Ok (Spec.adjacent_labels <$> phones)
  ∧ Forall (fun word =>
      length (Spec.adjacent_labels word) = (length word - 1)%nat
      ∧ (∀ i p q, word !! i = Some p → word !! S i = Some q →
           Spec.adjacent_labels word !! i = Some (p +:+ "-" +:+ q))
      ∧ ((length word < 2)%nat → Spec.adjacent_labels word = [])) phones.
Proof.
  split.
  - unfold phones_to_diphones. apply mapM_pure.
    intros word _. apply word_diphones_spec.
  - apply Forall_forall. intros word _. split; [|split].
    + apply adjacent_labels_length.
    + apply adjacent_labels_lookup.
    + intros Hlt. destruct word as [|p [|q rest]]; simpl in *; [done|done|lia].
Qed.

Example phones_to_diphones_hello :
  phones_to_diphones [["pau"; "hh"; "ah"; "l"; "ow"; "pau"]; ["pau"]; []]
  = Ok [["pau-hh"; "hh-ah"; "ah-l"; "l-ow"; "ow-pau"]; []; []].
Proof. reflexivity. Qed.

(** ** Phoneme sequencing *)

Lemma to_option_Ok {A} (m : result A) (a : A) : m = Ok a ↔ to_option m = Some a.
Proof. destruct m; simpl; split; congruence. Qed.

Lemma to_option_bind {A B} (m : result A) (k : A -> result B) :
  to_option (bind m k) = to_option m ≫= (fun a => to_option (k a)).
Proof. by destruct m. Qed.

Lemma to_option_index_nat {A} (l : list A) (i : nat) :
  to_option (Py.index l (Z.of_nat i)) = l !! i.
Proof. rewrite index_nat. by destruct (l !! i). Qed.

Lemma to_option_index_succ {A} (l : list A) (i : nat) :
  to_option (Py.index l (Z.of_nat i + 1)) = l !! (i + 1)%nat.
Proof.
  rewrite index_succ. replace (i + 1)%nat with (S i) by lia.
  by destruct (l !! S i).
Qed.

Section Sequencer.

Variable lower : string -> string.
Variable cmudict : gmap string (list (list string)).

Lemma paused_spec (ix : indices) (i : nat) :
  paused ix i = true ↔ Spec.in_pause_set ix i.
Proof.
  unfold paused, Spec.in_pause_set, Py.int_in.
  rewrite orb_true_iff, !bool_decide_eq_true. done.
Qed.

Lemma next_first_phone_spec (words : list string) (i : nat) :
  to_option (next_first_phone lower cmudict words i)
  = (next_word ← words !! (i + 1)%nat;
     next_ph ← Spec.phones lower cmudict next_word; Spec.firstPhone next_ph).
Proof.
  unfold next_first_phone, Spec.phones, Spec.firstPhone.
  rewrite to_option_bind, to_option_index_succ.
  destruct (words !! (i + 1)%nat) as [w|]; [|done]. cbn [mbind option_bind].
  rewrite to_option_bind. unfold Py.getitem.
  destruct (cmudict !! w) as [prons|]; [|done]. cbn [to_option mbind option_bind].
  rewrite to_option_bind. change 0%Z with (Z.of_nat 0). rewrite to_option_index_nat.
  destruct (prons !! 0%nat) as [pron|]; [|done]. cbn [mbind option_bind].
  apply (to_option_index_nat _ 0).
Qed.

(** One iteration of the loop appends the policy's list for that position,
    and raises exactly where the policy is undefined. *)
Lemma words_to_phones_body_spec (words : list string) (ix : indices)
    (i : nat) (word : string) (acc : list (list string)) :
  words !! i = Some word →
  to_option (words_to_phones_body lower cmudict words ix i word acc)
  = (fun e => acc ++ [e]) <$> Spec.boundary_policy lower cmudict words ix i.
Proof.
  intros Hword. unfold words_to_phones_body, Spec.boundary_policy.
  cbv zeta. rewrite Hword. cbn [mbind option_bind].
  unfold Spec.phones at 3.
  destruct (cmudict !! word) as [prons|]; [|done]. cbn [mbind option_bind].
  rewrite to_option_bind. change 0%Z with (Z.of_nat 0). rewrite to_option_index_nat.
  destruct (prons !! 0%nat) as [pron|]; [|done]. cbn [mbind option_bind].
  pose proof (paused_spec ix i) as Hp.
  pose proof (next_first_phone_spec words i) as Hn.
  assert (Hlen : (length words ≥ 1)%nat).
  { apply lookup_lt_Some in Hword. lia. }
  destruct (Nat.eqb_spec (length words) 1) as [HN|HN].
  { rewrite decide_True by done. done. }
  rewrite (decide_False (P := length words = 1%nat)) by done.
  destruct (Nat.eqb_spec i 0) as [Hi|Hi]; destruct (paused ix i) eqn:Hpa;
    cbn [andb negb orb].
  - rewrite decide_False by (intros [_ Hc]; apply Hc, Hp; done).
    rewrite decide_True by (split; [done|by apply Hp]). done.
  - rewrite decide_True
      by (split; [done|]; intros Hc; apply Hp in Hc; congruence).
    rewrite to_option_bind, Hn.
    by destruct (_ ← words !! (i + 1)%nat; _).
  - rewrite decide_False by (intros [Hc _]; done).
    rewrite decide_False by (intros [Hc _]; done).
    rewrite decide_True by (left; by apply Hp). done.
  - rewrite decide_False by (intros [Hc _]; done).
    rewrite decide_False by (intros [Hc _]; done).
    destruct (Z.eqb_spec (Z.of_nat i) (Z.of_nat (length words) - 1)) as [Hl|Hl].
    + rewrite decide_True by (right; lia). done.
    + rewrite decide_False
        by (intros [Hc|Hc]; [apply Hp in Hc; congruence|lia]).
      rewrite to_option_bind, Hn.
      by destruct (_ ← words !! (i + 1)%nat; _).
Qed.

Lemma words_to_phones_loop (words : list string) (ix : indices)
    (rest : list string) (i : nat) (acc : list (list string)) :
  (∀ k, rest !! k = words !! (i + k)%nat) →
  to_option (Py.for_enumerateM (words_to_phones_body lower cmudict words ix) i rest acc)
  = (fun es => acc ++ es)
      <$> mapM (Spec.boundary_policy lower cmudict words ix) (seq i (length rest)).
Proof.
  revert i acc. induction rest as [|word rest IH]; intros i acc Hrest.
  - simpl. by rewrite app_nil_r.
  - cbn [Py.for_enumerateM length seq]. rewrite to_option_bind.
    rewrite words_to_phones_body_spec
      by (rewrite <- (Nat.add_0_r i); symmetry; apply (Hrest 0%nat)).
    cbn [mapM].
    destruct (Spec.boundary_policy lower cmudict words ix i) as [e|]; [|done].
    cbn [fmap option_fmap option_map mbind option_bind].
    rewrite IH.
    + destruct (mapM _ (seq (S i) (length rest))); [|done].
      cbn. by rewrite <- app_assoc.
    + intros k. rewrite Nat.add_succ_comm. apply (Hrest (S k)).
Qed.

End Sequencer.

(** C1: [words_to_phones] returns a list exactly when the boundary policy is
    defined at every position, and then its entry at position [i] is the
    policy's list for word [i]: one of the five cases, by the number of
    words, the position and the comma and stop lists. In particular it
    returns when every word has an entry with a first pronunciation that is
    not empty. *)
Theorem words_to_phones_boundary_policy
    (lower : string -> string) (cmudict : gmap string (list (list string)))
    (words : list string) (ix : indices) :
  (∀ phones, words_to_phones lower cmudict words ix = Ok phones
     ↔ Forall2 (fun i e => Spec.boundary_policy lower cmudict words ix i = Some e)
               (seq 0 (length words)) phones)
  ∧ ((∀ w, w ∈ words → ∃ p ps, Spec.phones lower cmudict w = Some (p :: ps))
     → is_Ok (words_to_phones lower cmudict words ix)).
Proof.
  assert (Hiff : ∀ phones, words_to_phones lower cmudict words ix = Ok phones
     ↔ Forall2 (fun i e => Spec.boundary_policy lower cmudict words ix i = Some e)
               (seq 0 (length words)) phones).
  { intros phones. rewrite to_option_Ok. unfold words_to_phones.
    rewrite words_to_phones_loop by done.
    rewrite <- mapM_Some.
    destruct (mapM _ (seq 0 (length words))); simpl; split; congruence. }
  split; [exact Hiff|].
  intros Hres.
  assert (Hall : ∀ i, (i < length words)%nat →
            is_Some (Spec.boundary_policy lower cmudict words ix i)).
  { intros i Hi. unfold Spec.boundary_policy. cbv zeta.
    destruct (lookup_lt_is_Some_2 words i Hi) as [w Hw]. rewrite Hw.
    destruct (Hres w) as (p & ps & Hph); [by eapply list_elem_of_lookup_2|].
    cbn [mbind option_bind]. rewrite Hph. cbn [mbind option_bind].
    assert (Hnext : (S i < length words)%nat →
              is_Some (next_word ← words !! (i + 1)%nat;
                       next_ph ← Spec.phones lower cmudict next_word;
                       Spec.firstPhone next_ph)).
    { intros Hlt. replace (i + 1)%nat with (S i) by lia.
      destruct (lookup_lt_is_Some_2 words (S i) Hlt) as [w' Hw']. rewrite Hw'.
      destruct (Hres w') as (p' & ps' & Hph'); [by eapply list_elem_of_lookup_2|].
      cbn [mbind option_bind]. rewrite Hph'. by eexists. }
    repeat case_decide; try by eexists.
    - destruct Hnext as [f Hf]; [lia|]. rewrite Hf. by eexists.
    - destruct Hnext as [f Hf]; [lia|]. rewrite Hf. by eexists. }
  assert (Hm : is_Some (mapM (Spec.boundary_policy lower cmudict words ix)
                             (seq 0 (length words)))).
  { apply mapM_is_Some. apply Forall_forall. intros i Hi.
    apply Hall. apply elem_of_seq in Hi. lia. }
  destruct Hm as [phones Hm]. exists phones.
  apply Hiff. by apply mapM_Some.
Qed.

Lemma words_to_phones_boundary_policy_witness :
  is_Ok (words_to_phones Fixture.lower Fixture.cmudict ["hello"; "world"]
                         (Indices [0%Z] [1%Z] [])).
Proof.
  apply (words_to_phones_boundary_policy Fixture.lower Fixture.cmudict
           ["hello"; "world"] (Indices [0%Z] [1%Z] [])).
  intros w Hw.
  apply elem_of_cons in Hw as [->|Hw]; [by eexists _, _|].
  apply list_elem_of_singleton in Hw as ->. by eexists _, _.
Defined.

Example words_to_phones_hello_world :
  words_to_phones Fixture.lower Fixture.cmudict ["hello"; "world"]
                  (Indices [0%Z] [1%Z] [])
  = Ok [["pau"; "hh"; "ah"; "l"; "ow"; "pau"]; ["w"; "er"; "l"; "d"; "pau"]].
Proof. vm_compute. reflexivity. Qed.

(** ** Slices *)

Lemma bound_le (len : nat) (k : Z) : (Py.bound len k ≤ len)%nat.
Proof. unfold Py.bound. destruct (k <? 0)%Z; lia. Qed.

Lemma bound_nat (len k : nat) : Py.bound len (Z.of_nat k) = (k `min` len)%nat.
Proof.
  unfold Py.bound.
  assert ((Z.of_nat k <? 0)%Z = false) as -> by (apply Z.ltb_ge; lia). lia.
Qed.

Lemma bound_neg (len k : nat) :
  (0 < k)%nat → Py.bound len (- Z.of_nat k) = (len - k)%nat.
Proof.
  intros Hk. unfold Py.bound.
  assert ((- Z.of_nat k <? 0)%Z = true) as -> by (apply Z.ltb_lt; lia). lia.
Qed.

Lemma slice_length {A} (lo hi : option Z) (l : list A) :
  length (Py.slice lo hi l)
  = (from_option (Py.bound (length l)) (length l) hi
     - from_option (Py.bound (length l)) 0 lo)%nat.
Proof.
  unfold Py.slice. cbv zeta. rewrite length_take, length_drop.
  assert (from_option (Py.bound (length l)) (length l) hi ≤ length l)%nat.
  { destruct hi; simpl; [apply bound_le|lia]. }
  lia.
Qed.

(** [l[0:k]] for a bound that is not negative. *)
Lemma slice_prefix {A} (k : nat) (l : list A) :
  Py.slice (Some 0%Z) (Some (Z.of_nat k)) l = take k l.
Proof.
  unfold Py.slice. cbv zeta. cbn [from_option].
  rewrite (bound_nat _ 0), bound_nat. rewrite Nat.min_0_l, drop_0, Nat.sub_0_r.
  destruct (Nat.le_gt_cases k (length l)).
  - by rewrite Nat.min_l.
  - rewrite Nat.min_r by lia. by rewrite !take_ge by lia.
Qed.

(** [l[0:-k]] drops the last [k] elements. *)
Lemma slice_drop_tail {A} (k : nat) (l : list A) :
  (0 < k)%nat →
  Py.slice (Some 0%Z) (Some (- Z.of_nat k)%Z) l = take (length l - k) l.
Proof.
  intros Hk. unfold Py.slice. cbv zeta. cbn [from_option].
  rewrite (bound_nat _ 0), bound_neg by done.
  by rewrite Nat.min_0_l, drop_0, Nat.sub_0_r.
Qed.

(** [l[-k:]] keeps the last [k] elements. *)
Lemma slice_tail {A} (k : nat) (l : list A) :
  (0 < k)%nat →
  Py.slice (Some (- Z.of_nat k)%Z) None l = drop (length l - k) l.
Proof.
  intros Hk. unfold Py.slice. cbv zeta. cbn [from_option].
  rewrite bound_neg by done. apply take_ge. rewrite length_drop. lia.
Qed.

(** ** Markup extraction *)

Lemma index_raises {A} (l : list A) (k : Z) (e : exn) :
  Py.index l k = Raise e → e = IndexError.
Proof.
  unfold Py.index. cbv zeta.
  destruct (_ <? 0)%Z; [congruence|]. destruct (l !! _); congruence.
Qed.

Lemma scan_body_raises (tokens : list string) (i : nat) (word : string)
    (st : indices * Z) (e : exn) :
  scan_body tokens i word st = Raise e → e = IndexError.
Proof.
  destruct st as [ix counter]. unfold scan_body. cbv zeta.
  destruct (Py.index tokens (Z.of_nat i - 1)) as [prev|e1] eqn:Hprev;
    [|apply index_raises in Hprev; subst e1];
  destruct (Py.index tokens (Z.of_nat i + 2)) as [nxt|e2] eqn:Hnxt;
    try (apply index_raises in Hnxt; subst e2);
  cbn [bind];
  repeat (match goal with
          | |- context [if ?b then _ else _] => destruct b; cbn [bind]
          end);
  congruence.
Qed.

(** The [try] block swallows the only exception its body can raise. *)
Lemma scan_step_Ok (tokens : list string) (i : nat) (word : string)
    (st : indices * Z) : is_Ok (scan_step tokens i word st).
Proof.
  unfold scan_step.
  destruct (scan_body tokens i word st) as [st'|e] eqn:Hb; [by eexists|].
  apply scan_body_raises in Hb. subst e. by eexists.
Qed.

Lemma for_enumerateM_Ok {A St} (body : nat -> A -> St -> result St) :
  (∀ i x s, is_Ok (body i x s)) →
  ∀ l i s, is_Ok (Py.for_enumerateM body i l s).
Proof.
  intros Hbody l. induction l as [|x l IH]; intros i s; [by eexists|].
  cbn [Py.for_enumerateM]. destruct (Hbody i x s) as [s' ->]. apply IH.
Qed.

Lemma scan_tokens_Ok (tokens : list string) (ix : indices) :
  is_Ok (scan_tokens tokens ix).
Proof.
  unfold scan_tokens.
  destruct (for_enumerateM_Ok (scan_step tokens) (scan_step_Ok tokens)
              tokens 0%nat (ix, 0%Z)) as [st ->].
  by eexists.
Qed.

Lemma chars_length (w : string) : length (Py.chars w) = String.length w.
Proof. induction w as [|c w IH]; simpl; [done|by rewrite IH]. Qed.

Lemma words_to_letters_app (ws1 ws2 : list string) :
  words_to_letters (ws1 ++ ws2) = words_to_letters ws1 ++ words_to_letters ws2.
Proof. unfold words_to_letters. by rewrite fmap_app, concat_app. Qed.

Lemma sum_word_lengths (ws : list string) :
  Py.sum ((fun w => Z.of_nat (String.length w)) <$> ws)
  = Z.of_nat (length (words_to_letters ws)).
Proof.
  induction ws as [|w ws IH]; [done|].
  change (words_to_letters (w :: ws)) with (Py.chars w ++ words_to_letters ws).
  rewrite length_app, chars_length. cbn [fmap list_fmap Py.sum foldr].
  unfold Py.sum in IH. rewrite IH. lia.
Qed.

(** The remapped index of word [i] counts the letters of words [0..i]. *)
Lemma spell_index_letters (words : list string) (i : nat) :
  spell_index ((fun w => Z.of_nat (String.length w)) <$> words) (Z.of_nat i)
  = (Z.of_nat (length (words_to_letters (take (S i) words))) - 1)%Z.
Proof.
  unfold spell_index.
  replace (Z.of_nat i + 1)%Z with (Z.of_nat (S i)) by lia.
  by rewrite slice_prefix, <- fmap_take, sum_word_lengths.
Qed.

(** That count, less one, is where the last letter of word [i] stands. *)
Lemma last_letter_position (words : list string) (i : nat) (w : string) :
  words !! i = Some w → w ≠ "" →
  words_to_letters words !! (length (words_to_letters (take (S i) words)) - 1)%nat
  = last (Py.chars w).
Proof.
  intros Hw Hne.
  assert (Hlen : (0 < length (Py.chars w))%nat).
  { destruct w; [done|simpl; lia]. }
  pose proof (take_drop_middle words i w Hw) as Hsplit.
  rewrite (take_S_r words i w Hw).
  set (before := take i words) in *. set (after := drop (S i) words) in *.
  rewrite <- Hsplit.
  rewrite !words_to_letters_app.
  change (words_to_letters [w]) with (Py.chars w ++ []).
  change (words_to_letters (w :: after))
    with (Py.chars w ++ words_to_letters after).
  rewrite app_nil_r, length_app.
  rewrite lookup_app_r by lia.
  rewrite lookup_app_l by lia.
  rewrite last_lookup. f_equal. lia.
Qed.

(** C6: the comma and stop lists are not always disjoint. For the tokens of
    the phrase [hello , ) .] the scan records word 0 as followed by a comma
    and, because the token before the full stop is a bracket, once more as
    followed by a stop. *)
Theorem scan_tokens_comma_and_stop_on_one_word :
  ∃ ix, scan_tokens ["hello"; ","; ")"; "."] no_indices = Ok ix
        ∧ commas ix = [0%Z] ∧ stops ix = [0%Z]
        ∧ 0%Z ∈ commas ix ∧ 0%Z ∈ stops ix.
Proof.
  exists (Indices [0%Z] [0%Z] []).
  split; [reflexivity|]. cbn [commas stops].
  repeat split; apply list_elem_of_singleton; reflexivity.
Qed.

(** C7: with [spell] set and no reversal, [__init__] replaces the words by
    their letters and sends every comma, stop and mark index [i] to
    [sum(word_lengths[0:i+1])-1]; for a position [i] of a word that is not
    empty this is the number of letters of words [0..i] less one, the place
    of the last letter of word [i] among the letters. For the phrase [ok.],
    tokenized as [ok] and [.], the words become [o], [k] and the stop list
    holds index 1. *)
Theorem spell_remaps_to_last_letter
    (lower : string -> string) (word_tokenize : string -> list string)
    (phrase : string) :
  (∃ ix words,
     phrase_to_words lower word_tokenize phrase true no_indices = Ok (ix, words)
     ∧ let word_lengths := (fun w => Z.of_nat (String.length w)) <$> words in
       init_markup lower word_tokenize phrase true None
       = Ok (words_to_letters words, map_indices (spell_index word_lengths) ix)
       ∧ ∀ (i : nat) (w : string), words !! i = Some w → w ≠ "" →
           spell_index word_lengths (Z.of_nat i)
           = (Py.sum (take (S i) word_lengths) - 1)%Z
           ∧ (0 ≤ spell_index word_lengths (Z.of_nat i))%Z
           ∧ words_to_letters words
               !! Z.to_nat (spell_index word_lengths (Z.of_nat i))
             = last (Py.chars w))
  ∧ (lower "ok." = "ok." →
     word_tokenize "ok." = ["ok"; "."] →
     word_tokenize "ok" = ["ok"] →
     init_markup lower word_tokenize "ok." true None
     = Ok (["o"; "k"], Indices [] [1%Z] [])).
Proof.
  split.
  - unfold init_markup, phrase_to_words. cbv zeta.
    destruct (scan_tokens_Ok (interleave_stops (word_tokenize (lower phrase)))
                no_indices) as [ix Hix].
    rewrite Hix. cbn [bind]. eexists _, _. split; [reflexivity|].
    split; [reflexivity|].
    intros i w Hw Hne.
    assert (Hpos : (0 < length (words_to_letters (take (S i)
              (word_tokenize (Py.join (filter
                 (fun l => negb (Py.str_in l Py.punctuation) = true)
                 (Py.chars (lower phrase))))))))%nat).
    { rewrite (take_S_r _ i w Hw), words_to_letters_app, length_app.
      change (words_to_letters [w]) with (Py.chars w ++ []).
      rewrite app_nil_r. destruct w; [done|simpl; lia]. }
    rewrite spell_index_letters. split; [|split].
    + by rewrite <- fmap_take, sum_word_lengths.
    + lia.
    + rewrite <- (last_letter_position _ i w Hw Hne). f_equal. lia.
  - intros Hlower Htok1 Htok2.
    unfold init_markup, phrase_to_words. cbv zeta.
    rewrite Hlower, Htok1.
    change (Py.join (filter (fun l => negb (Py.str_in l Py.punctuation) = true)
                            (Py.chars "ok."))) with "ok".
    rewrite Htok2. reflexivity.
Qed.

Lemma spell_remaps_to_last_letter_witness :
  init_markup Fixture.lower Fixture.word_tokenize "ok." true None
  = Ok (["o"; "k"], Indices [] [1%Z] []).
Proof.
  apply (spell_remaps_to_last_letter Fixture.lower Fixture.word_tokenize "ok.");
    reflexivity.
Defined.

(** ** Audio assembly with crossfade *)

Lemma ms10_pos : (0 < ms10)%nat.
Proof. unfold ms10. lia. Qed.

Section Assembly.

Variable load : string -> list Z.
Variable taper : nat -> Z -> Z -> Z.
Variable diphones_dict : gmap string string.

(** Tapering a unit of at least 10 ms with a full 10 ms tail rewrites its
    first 10 ms and keeps its length and the rest of its samples. *)
Lemma taper_head_length (data prev : list Z) :
  (ms10 ≤ length data)%nat → length prev = ms10 →
  ∃ data', taper_head taper data prev = Ok data'
           ∧ length data' = length data
           ∧ drop ms10 data' = drop ms10 data.
Proof.
  intros Hdata Hprev. unfold taper_head. cbv zeta.
  rewrite slice_prefix.
  assert (Hhead : length (take ms10 data) = ms10) by (rewrite length_take; lia).
  unfold broadcast. rewrite Hhead, Hprev, Nat.eqb_refl. cbn [bind].
  assert (Hwin : length (imap (fun k cp => taper k cp.1 cp.2)
                              (zip (take ms10 data) prev)) = ms10).
  { rewrite length_imap, length_zip_with. lia. }
  rewrite Hwin, Nat.eqb_refl. eexists. split; [reflexivity|]. split.
  - rewrite length_app, length_drop, Hwin. lia.
  - rewrite drop_app_length'; done.
Qed.

(** One unit under crossfade: every unit but the final one of the utterance
    enters the word buffer without its last 10 ms. *)
Lemma diphone_body_crossfade (n_words i : nat) (word : list string) (j : nat)
    (diphone wav_file : string) (word_audio : list Z) (prev : option (list Z)) :
  diphones_dict !! diphone = Some wav_file →
  (ms10 ≤ length (load wav_file))%nat →
  (j ≠ 0%nat → full_tail prev) →
  ∃ data prev',
    diphone_body load taper diphones_dict true n_words i word j diphone
                 (word_audio, prev) = Ok (word_audio ++ data, prev')
    ∧ if final_unit n_words i word j
      then length data = length (load wav_file)
      else length data = (length (load wav_file) - ms10)%nat ∧ full_tail prev'.
Proof.
  intros Hd Hlen Hprev. unfold diphone_body. rewrite Hd.
  assert (Hstep : ∃ data1, (if negb (j =? 0)%nat
                    then match prev with
                         | Some p => taper_head taper (load wav_file) p
                         | None => Raise NameError
                         end
                    else Ok (load wav_file)) = Ok data1
                    ∧ length data1 = length (load wav_file)).
  { destruct (Nat.eqb_spec j 0) as [Hj|Hj]; cbn [negb]; [by eexists|].
    destruct (Hprev Hj) as (p & -> & Hp).
    destruct (taper_head_length (load wav_file) p Hlen Hp) as (d & Hd1 & Hd2 & _).
    by exists d. }
  destruct Hstep as (data1 & -> & Hdata1). cbn [bind].
  fold (final_unit n_words i word j).
  destruct (final_unit n_words i word j); cbn [negb bind fst snd].
  - by eexists _, _.
  - eexists _, _. split; [reflexivity|].
    rewrite slice_drop_tail, slice_tail by apply ms10_pos. split.
    + rewrite length_take. lia.
    + eexists. split; [reflexivity|]. rewrite length_drop. lia.
Qed.

Lemma word_units_loop (n_words i : nat) (word : list string)
    (rest : list string) (units : list (list Z)) :
  loaded_units load diphones_dict rest units →
  ∀ (j : nat) (word_audio : list Z) (prev : option (list Z)),
    length word = (j + length rest)%nat →
    (rest ≠ [] → j ≠ 0%nat → full_tail prev) →
    ∃ buf prev',
      Py.for_enumerateM (diphone_body load taper diphones_dict true n_words i word)
                        j rest (word_audio, prev)
      = Ok (word_audio ++ buf, prev')
      ∧ Z.of_nat (length buf)
        = kept_samples (Z.of_nat i =? Z.of_nat n_words - 1)%Z (length word) j units.
Proof.
  induction 1 as [|diphone u rest units (wav_file & Hd & Hu & Hlen) Hrest IH];
    intros j word_audio prev Hj Hprev.
  - exists [], prev. by rewrite app_nil_r.
  - cbn [Py.for_enumerateM length] in *. subst u.
    destruct (diphone_body_crossfade n_words i word j diphone wav_file
                word_audio prev Hd Hlen) as (data & prev1 & -> & Hdata).
    { intros Hj0. by apply Hprev. }
    cbn [bind].
    destruct (IH (S j) (word_audio ++ data) prev1) as (buf & prev' & -> & Hbuf).
    { lia. }
    { intros Hne _. unfold final_unit in Hdata.
      assert ((Z.of_nat j =? Z.of_nat (length word) - 1)%Z = false) as Hnl.
      { apply Z.eqb_neq. destruct rest; [done|]. simpl in Hj. lia. }
      rewrite Hnl in Hdata. by destruct Hdata. }
    exists (data ++ buf), prev'. split; [by rewrite app_assoc|].
    rewrite length_app, Nat2Z.inj_add, Hbuf. cbn [kept_samples].
    unfold final_unit in Hdata.
    destruct (Z.eqb_spec (Z.of_nat j) (Z.of_nat (length word) - 1)) as [Hjl|Hjl];
      destruct (Z.of_nat i =? Z.of_nat n_words - 1)%Z; cbn [andb] in *.
    + assert ((S j =? length word)%nat = true) as -> by (apply Nat.eqb_eq; lia).
      lia.
    + destruct Hdata as [-> _]. lia.
    + assert ((S j =? length word)%nat = false) as -> by (apply Nat.eqb_neq; lia).
      destruct Hdata as [-> _]. lia.
    + destruct Hdata as [-> _]. lia.
Qed.

Lemma kept_samples_not_last (wlen j : nat) (units : list (list Z)) :
  kept_samples false wlen j units
  = (Spec.total_samples units - Z.of_nat ms10 * Z.of_nat (length units))%Z.
Proof.
  revert j. induction units as [|u units IH]; intros j;
    [unfold Spec.total_samples; simpl; lia|].
  cbn [kept_samples andb]. rewrite IH. unfold Spec.total_samples.
  cbn [fmap list_fmap Py.sum foldr length]. unfold Py.sum. lia.
Qed.

Lemma kept_samples_last (wlen j : nat) (units : list (list Z)) :
  units ≠ [] → wlen = (j + length units)%nat →
  kept_samples true wlen j units
  = (Spec.total_samples units - Z.of_nat ms10 * (Z.of_nat (length units) - 1))%Z.
Proof.
  revert j. induction units as [|u units IH]; intros j Hne Hlen; [done|].
  cbn [kept_samples andb length] in *.
  destruct units as [|u' units'].
  - assert ((S j =? wlen)%nat = true) as -> by (apply Nat.eqb_eq; simpl in *; lia).
    unfold Spec.total_samples. simpl. lia.
  - assert ((S j =? wlen)%nat = false) as -> by (apply Nat.eqb_neq; simpl in *; lia).
    rewrite IH by (done || (simpl in *; lia)).
    unfold Spec.total_samples. cbn [fmap list_fmap Py.sum foldr length]. unfold Py.sum. lia.
Qed.

End Assembly.

(** C3 as the code has it: with crossfade, when every unit of a word is at
    least 160 samples long, the buffer of the word before its pauses holds
    the sum of its unit lengths less 160 samples for every one of its
    diphones if the word is not the last of the utterance, and less 160
    samples for every diphone but the final one if it is the last word. *)
Theorem crossfade_word_samples
    (load : string -> list Z) (taper : nat -> Z -> Z -> Z)
    (diphones_dict : gmap string string) (n_words i : nat)
    (word : list string) (units : list (list Z)) (prev : option (list Z)) :
  loaded_units load diphones_dict word units →
  word ≠ [] →
  ∃ buf prev',
    word_units load taper diphones_dict true n_words i word prev = Ok (buf, prev')
    ∧ Z.of_nat (length buf)
      = if decide (Z.of_nat i = Z.of_nat n_words - 1)%Z
        then (Spec.total_samples units - 160 * (Z.of_nat (length word) - 1))%Z
        else (Spec.total_samples units - 160 * Z.of_nat (length word))%Z.
Proof.
  intros Hunits Hne.
  destruct (word_units_loop load taper diphones_dict n_words i word word units
              Hunits 0%nat [] prev) as (buf & prev' & Hrun & Hlen);
    [done|done|].
  exists buf, prev'. split; [exact Hrun|].
  rewrite Hlen. pose proof (Forall2_length _ _ _ Hunits) as Hsame.
  change 160%Z with (Z.of_nat ms10).
  destruct (Z.eqb_spec (Z.of_nat i) (Z.of_nat n_words - 1)) as [Hi|Hi].
  - rewrite decide_True by done. rewrite kept_samples_last.
    + by rewrite Hsame.
    + intros ->. apply Forall2_nil_inv_r in Hunits. done.
    + lia.
  - rewrite decide_False by done. rewrite kept_samples_not_last. by rewrite Hsame.
Qed.

Lemma crossfade_word_samples_witness :
  ∃ buf prev',
    word_units Fixture.load Fixture.taper (load_diphone_data Fixture.glob_wav "./diphones")
               true 2 0 ["pau-ay"; "ay-ae"] None = Ok (buf, prev')
    ∧ Z.of_nat (length buf) = 80%Z.
Proof.
  apply (crossfade_word_samples Fixture.load Fixture.taper
           (load_diphone_data Fixture.glob_wav "./diphones") 2 0
           ["pau-ay"; "ay-ae"]
           [Fixture.load "diphones/pau-ay.wav"; Fixture.load "diphones/ay-ae.wav"]
           None).
  - repeat constructor; eexists; (split; [reflexivity|split; [reflexivity|]]);
      vm_compute; lia.
  - done.
Defined.

(** C3 as stated fails on the first word of a two-word utterance: its two
    units of 200 samples leave 80 samples in its buffer, not 240. *)
Lemma crossfade_count_counterexample :
  ¬ Spec.crossfade_count Fixture.load Fixture.taper
      (load_diphone_data Fixture.glob_wav "./diphones") 2 0
      ["pau-ay"; "ay-ae"]
      [Fixture.load "diphones/pau-ay.wav"; Fixture.load "diphones/ay-ae.wav"].
Proof.
  intros Hclaim.
  destruct (word_units Fixture.load Fixture.taper
              (load_diphone_data Fixture.glob_wav "./diphones") true 2 0
              ["pau-ay"; "ay-ae"] None) as [[buf prev']|e] eqn:Hrun.
  - specialize (Hclaim None buf prev' Hrun).
    vm_compute in Hrun. injection Hrun as <- <-.
    vm_compute in Hclaim. discriminate.
  - vm_compute in Hrun. discriminate.
Qed.

(** C4: the taper is not applied at the boundary between two words. For the
    phrase [i am] (diphones [pau-ay], [ay-ae] and then [ae-m], [m-pau]) with
    crossfade, the last 160 samples of [ay-ae] are taken off the buffer and
    go nowhere: the first unit of the next word, [ae-m], enters the buffer
    with its first samples as they were loaded. The two boundaries inside
    the words are tapered. *)
Theorem crossfade_skips_word_boundary
    (rescale : Qc -> list Z -> result (list Z)) (taper : nat -> Z -> Z -> Z) :
  Synth_init Fixture.lower Fixture.word_tokenize Fixture.cmudict
             Fixture.glob_wav Fixture.load rescale taper
             (Args false None None "./diphones" true) "i am"
  = Ok (take 40 (Fixture.load "diphones/pau-ay.wav")
        ++ ((fun k => taper k 2000%Z 1000%Z) <$> seq 0 40)
        ++ take 40 (Fixture.load "diphones/ae-m.wav")
        ++ ((fun k => taper k 4000%Z 3000%Z) <$> seq 0 160)
        ++ drop 160 (Fixture.load "diphones/m-pau.wav")).
Proof. vm_compute. reflexivity. Qed.

(** ** Pauses, volume and errors *)

Lemma int_in_decide (x : Z) (l : list Z) {B} (a b : B) :
  (if Py.int_in x l then a else b) = (if decide (x ∈ l) then a else b).
Proof. unfold Py.int_in. case_bool_decide; case_decide; done. Qed.

(** C5 as the code has it: after the diphones of a word, the 200 ms silence
    is appended if its index is in the comma list, and then, whether or not
    that happened, the 400 ms silence is appended if its index is in the stop
    list. A word in only one of the two lists gets that one silence, a word
    in neither gets none; the silences are 3200 and 6400 zero samples. *)
Theorem word_pauses_comma_then_stop (ix : indices) (i : nat) (word_audio : list Z) :
  word_pauses ix i word_audio
  = word_audio
    ++ (if decide (Z.of_nat i ∈ commas ix) then silence ms200 else [])
    ++ (if decide (Z.of_nat i ∈ stops ix) then silence ms400 else [])
  ∧ (Z.of_nat i ∈ stops ix → Z.of_nat i ∉ commas ix →
     word_pauses ix i word_audio = word_audio ++ silence ms400)
  ∧ (Z.of_nat i ∈ commas ix → Z.of_nat i ∉ stops ix →
     word_pauses ix i word_audio = word_audio ++ silence ms200)
  ∧ (Z.of_nat i ∉ commas ix → Z.of_nat i ∉ stops ix →
     word_pauses ix i word_audio = word_audio)
  ∧ silence ms200 = replicate (Z.to_nat 3200) 0%Z
  ∧ silence ms400 = replicate (Z.to_nat 6400) 0%Z.
Proof.
  assert (Heq : word_pauses ix i word_audio
    = word_audio
      ++ (if decide (Z.of_nat i ∈ commas ix) then silence ms200 else [])
      ++ (if decide (Z.of_nat i ∈ stops ix) then silence ms400 else [])).
  { unfold word_pauses. cbv zeta. rewrite !int_in_decide.
    repeat case_decide; rewrite ?app_nil_l, ?app_nil_r, <- ?app_assoc; reflexivity. }
  split; [exact Heq|]. rewrite Heq.
  repeat split; try reflexivity; intros H1 H2.
  - rewrite decide_False, decide_True by done. by rewrite app_nil_l.
  - rewrite decide_True, decide_False by done. by rewrite app_nil_r.
  - rewrite !decide_False by done. by rewrite app_nil_l, app_nil_r.
Qed.

Lemma word_pauses_comma_then_stop_witness :
  word_pauses (Indices [0%Z] [1%Z] []) 1 [7%Z] = [7%Z] ++ silence ms400.
Proof.
  apply (word_pauses_comma_then_stop (Indices [0%Z] [1%Z] []) 1 [7%Z]).
  - apply list_elem_of_singleton. reflexivity.
  - intros H. apply list_elem_of_singleton in H. discriminate.
Defined.

(** C5 as stated fails for a word whose index is in both lists, as the scan
    of the tokens of [hello , ) .] leaves word 0: it gets the 200 ms silence
    and then the 400 ms silence. *)
Lemma pause_after_counterexample :
  ∃ ix, scan_tokens ["hello"; ","; ")"; "."] no_indices = Ok ix
        ∧ word_pauses ix 0 [] = silence ms200 ++ silence ms400
        ∧ word_pauses ix 0 [] ≠ [] ++ Spec.pause_after ix 0.
Proof.
  exists (Indices [0%Z] [0%Z] []). split; [reflexivity|]. split; [reflexivity|].
  intros H. apply (f_equal length) in H. vm_compute in H. discriminate.
Qed.

Lemma volume_factor_100 : volume_factor 100 = 1%Qc.
Proof. apply Qc_is_canon. reflexivity. Qed.

(** C8 as the code has it: an unset volume leaves the buffer as it is;
    volume 100 passes the buffer to [rescale] with factor 1, the call that
    an emphasised word gets, whatever [rescale] does with it. *)
Theorem volume_unset_or_full
    (rescale : Qc -> list Z -> result (list Z)) (synth_audio : list Z) :
  apply_volume rescale None synth_audio = Ok synth_audio
  ∧ apply_volume rescale (Some 100%Z) synth_audio = rescale 1%Qc synth_audio
  ∧ apply_volume rescale (Some 100%Z) synth_audio
    = word_emphasis rescale (Indices [] [] [0%Z]) 0 synth_audio.
Proof.
  unfold apply_volume. rewrite volume_factor_100. by repeat split.
Qed.

(** C8 as stated fails when [rescale(1)] brings the loudest sample to full
    scale: volume 100 changes a buffer whose peak is below it. *)
Lemma volume_100_counterexample :
  apply_volume (Spec.rescale 32767) (Some 100%Z) [1000%Z; (-2000)%Z]
  = Ok [16383%Z; (-32767)%Z]
  ∧ apply_volume (Spec.rescale 32767) (Some 100%Z) [1000%Z; (-2000)%Z]
    ≠ Ok [1000%Z; (-2000)%Z].
Proof.
  assert (H : apply_volume (Spec.rescale 32767) (Some 100%Z) [1000%Z; (-2000)%Z]
              = Ok [16383%Z; (-32767)%Z]) by (vm_compute; reflexivity).
  split; [exact H|]. rewrite H. discriminate.
Qed.

(** C9: a word that is not in the dictionary does not always end the
    synthesis with the exit that names it. In [hello xyzzy] the look-ahead
    from [hello] reads the entry of [xyzzy] before the loop reaches that
    word, and the construction ends with a [KeyError]; for [xyzzy hello] it
    ends with the exit. Either way no buffer is returned. *)
Theorem unknown_next_word_raises_KeyError
    (glob_wav : string -> list string) (load : string -> list Z)
    (rescale : Qc -> list Z -> result (list Z)) (taper : nat -> Z -> Z -> Z)
    (volume : option Z) (wav_folder : string) (crossfade : bool) :
  Fixture.cmudict !! "xyzzy" = None
  ∧ words_to_phones Fixture.lower Fixture.cmudict ["hello"; "xyzzy"] no_indices
    = Raise (KeyError "xyzzy")
  ∧ Synth_init Fixture.lower Fixture.word_tokenize Fixture.cmudict
               glob_wav load rescale taper
               (Args false None volume wav_folder crossfade) "hello xyzzy"
    = Raise (KeyError "xyzzy")
  ∧ Synth_init Fixture.lower Fixture.word_tokenize Fixture.cmudict
               glob_wav load rescale taper
               (Args false None volume wav_folder crossfade) "xyzzy hello"
    = Raise (SystemExit_word "xyzzy").
Proof. repeat split; vm_compute; reflexivity. Qed.

(** ** The unit table and the path slice *)

Lemma list_ascii_app (s1 s2 : string) :
  String.list_ascii_of_string (s1 +:+ s2)
  = String.list_ascii_of_string s1 ++ String.list_ascii_of_string s2.
Proof. induction s1 as [|c s1 IH]; simpl; [done|by rewrite IH]. Qed.

Lemma list_ascii_length (s : string) :
  length (String.list_ascii_of_string s) = String.length s.
Proof. induction s as [|c s IH]; simpl; [done|by rewrite IH]. Qed.

(** The key of the file [name.wav] under a path prefix: the prefix and the
    name without their first nine characters. *)
Lemma diphone_key_path (prefix name : string) :
  diphone_key (prefix +:+ name +:+ ".wav")
  = String.string_of_list_ascii
      (drop 9 (String.list_ascii_of_string prefix ++ String.list_ascii_of_string name)).
Proof.
  unfold diphone_key, Py.str_slice. f_equal.
  rewrite !list_ascii_app, app_assoc.
  set (l := String.list_ascii_of_string prefix ++ String.list_ascii_of_string name).
  unfold Py.slice. cbv zeta. cbn [from_option].
  rewrite (bound_nat _ 9). change (-4)%Z with (- Z.of_nat 4)%Z.
  rewrite bound_neg by lia.
  rewrite length_app. cbn [String.list_ascii_of_string length].
  replace (length l + 4 - 4)%nat with (length l) by lia.
  destruct (Nat.le_gt_cases 9 (length l)) as [Hl|Hl].
  - rewrite Nat.min_l by lia. rewrite drop_app_le by lia.
    rewrite take_app_length'; [done|]. rewrite length_drop. lia.
  - replace (length l - 9 `min` (length l + 4))%nat with 0%nat by lia.
    rewrite take_0. symmetry. apply drop_ge. lia.
Qed.

Lemma diphone_key_length (prefix name : string) :
  String.length (diphone_key (prefix +:+ name +:+ ".wav"))
  = (String.length prefix + String.length name - 9)%nat.
Proof.
  rewrite diphone_key_path, <- list_ascii_length.
  rewrite String.list_ascii_of_string_of_list_ascii.
  by rewrite length_drop, length_app, !list_ascii_length.
Qed.

(** With a prefix of nine characters the key is the name. *)
Lemma diphone_key_prefix_9 (prefix name : string) :
  String.length prefix = 9%nat → diphone_key (prefix +:+ name +:+ ".wav") = name.
Proof.
  intros Hp. rewrite diphone_key_path.
  rewrite drop_app_length' by (by rewrite list_ascii_length).
  apply String.string_of_list_ascii_of_string.
Qed.

(** With a longer prefix that ends in the separator, the key holds it. *)
Lemma diphone_key_long_prefix (folder name : string) :
  (9 ≤ String.length folder)%nat →
  Ascii.ascii_of_nat 47
  ∈ String.list_ascii_of_string (diphone_key ((folder +:+ "/") +:+ name +:+ ".wav")).
Proof.
  intros Hf. rewrite diphone_key_path.
  rewrite String.list_ascii_of_string_of_list_ascii.
  rewrite list_ascii_app. rewrite <- app_assoc.
  rewrite drop_app_le by (rewrite list_ascii_length; lia).
  apply elem_of_app. right. left.
Qed.

(** Every key of the table is the slice of one of the files. *)
Lemma load_diphone_data_lookup (glob_wav : string -> list string)
    (wav_folder diphone wav_file : string) :
  load_diphone_data glob_wav wav_folder !! diphone = Some wav_file →
  wav_file ∈ glob_wav wav_folder ∧ diphone_key wav_file = diphone.
Proof.
  unfold load_diphone_data.
  generalize (glob_wav wav_folder). intros files.
  induction files as [|f files IH] using rev_ind;
    [cbn [foldl]; by rewrite lookup_empty|].
  rewrite foldl_app. cbn [foldl].
  destruct (decide (diphone_key f = diphone)) as [Hk|Hk].
  - rewrite <- Hk, lookup_insert_eq. intros [= <-].
    split; [|done]. apply elem_of_app. right. left.
  - rewrite lookup_insert_ne by done. intros H. destruct (IH H) as [Hin Hkey].
    split; [|done]. apply elem_of_app. by left.
Qed.

(** Every file is found again under its key, or a later file with that key. *)
Lemma load_diphone_data_key (glob_wav : string -> list string)
    (wav_folder wav_file : string) :
  wav_file ∈ glob_wav wav_folder →
  ∃ wav_file', load_diphone_data glob_wav wav_folder !! diphone_key wav_file
               = Some wav_file'.
Proof.
  unfold load_diphone_data.
  generalize (glob_wav wav_folder). intros files.
  induction files as [|f files IH] using rev_ind; [by intros ?%elem_of_nil|].
  rewrite foldl_app. cbn [foldl]. intros Hin.
  destruct (decide (diphone_key f = diphone_key wav_file)) as [Hk|Hk].
  - rewrite <- Hk, lookup_insert_eq. by eexists.
  - rewrite lookup_insert_ne by done. apply IH.
    apply elem_of_app in Hin as [Hin|Hin]; [done|].
    apply list_elem_of_singleton in Hin. congruence.
Qed.

(** C10 as the code has it, for a folder whose files are [prefix name .wav]:
    - a name that is not empty is its own key exactly when the prefix has
      nine characters, and then the table maps each name to its file and
      nothing else;
    - when the prefix is a folder of nine or more characters and the
      separator, every key holds the separator, so a label without one is
      not in the table, and the assembly of an utterance whose first word
      has a diphone with such a label ends with the exit that names it. *)
Theorem diphone_key_nine_character_prefix
    (glob_wav : string -> list string) (wav_folder prefix : string)
    (names : list string) :
  glob_wav wav_folder = (fun name => prefix +:+ name +:+ ".wav") <$> names →
  (∀ name, name ≠ "" →
     diphone_key (prefix +:+ name +:+ ".wav") = name ↔ String.length prefix = 9%nat)
  ∧ (String.length prefix = 9%nat →
     ∀ name, load_diphone_data glob_wav wav_folder !! name
             = if decide (name ∈ names)
               then Some (prefix +:+ name +:+ ".wav") else None)
  ∧ (∀ folder, prefix = folder +:+ "/" → (9 ≤ String.length folder)%nat →
     ∀ diphone, Ascii.ascii_of_nat 47 ∉ String.list_ascii_of_string diphone →
       load_diphone_data glob_wav wav_folder !! diphone = None
       ∧ ∀ load rescale taper word rest ix crossfade volume reverse,
           diphones_to_wav load rescale taper ((diphone :: word) :: rest)
             (load_diphone_data glob_wav wav_folder) ix crossfade volume reverse
           = Raise (SystemExit_diphone diphone)).
Proof.
  intros Hglob.
  assert (Hfiles : ∀ diphone wav_file,
            load_diphone_data glob_wav wav_folder !! diphone = Some wav_file →
            ∃ name, name ∈ names ∧ wav_file = prefix +:+ name +:+ ".wav"
                    ∧ diphone_key wav_file = diphone).
  { intros diphone wav_file Hl.
    apply load_diphone_data_lookup in Hl as [Hin Hkey].
    rewrite Hglob in Hin. apply list_elem_of_fmap in Hin as (name & -> & Hname).
    by exists name. }
  split; [|split].
  - intros name Hname. split.
    + intros Hkey. apply (f_equal String.length) in Hkey.
      rewrite diphone_key_length in Hkey.
      assert (0 < String.length name)%nat by (destruct name; [done|simpl; lia]).
      lia.
    + apply diphone_key_prefix_9.
  - intros Hp name. case_decide as Hin.
    + destruct (load_diphone_data_key glob_wav wav_folder
                  (prefix +:+ name +:+ ".wav")) as [wav_file Hl].
      { rewrite Hglob. apply list_elem_of_fmap. by exists name. }
      rewrite diphone_key_prefix_9 in Hl by done. rewrite Hl.
      destruct (Hfiles _ _ Hl) as (name' & _ & -> & Hkey).
      rewrite diphone_key_prefix_9 in Hkey by done. by subst name'.
    + destruct (load_diphone_data glob_wav wav_folder !! name) as [wav_file|] eqn:Hl;
        [|done].
      destruct (Hfiles _ _ Hl) as (name' & Hin' & -> & Hkey).
      rewrite diphone_key_prefix_9 in Hkey by done. by subst name'.
  - intros folder -> Hfolder diphone Hsep.
    assert (Hnone : load_diphone_data glob_wav wav_folder !! diphone = None).
    { destruct (load_diphone_data glob_wav wav_folder !! diphone) as [wav_file|] eqn:Hl;
        [|done].
      destruct (Hfiles _ _ Hl) as (name' & _ & -> & Hkey).
      destruct Hsep. rewrite <- Hkey. by apply diphone_key_long_prefix. }
    split; [exact Hnone|]. intros.
    unfold diphones_to_wav. cbn [Py.for_enumerateM].
    unfold word_body at 1. unfold word_units. cbn [Py.for_enumerateM].
    unfold diphone_body at 1. rewrite Hnone. reflexivity.
Qed.

Lemma diphone_key_nine_character_prefix_witness :
  load_diphone_data Fixture.glob_wav "./diphones" !! "ay-ae"
  = Some "diphones/ay-ae.wav".
Proof.
  destruct (diphone_key_nine_character_prefix Fixture.glob_wav "./diphones"
              "diphones/" ["pau-ay"; "ay-ae"; "ae-m"; "m-pau"] eq_refl)
    as (_ & Htable & _).
  rewrite (Htable eq_refl "ay-ae"). reflexivity.
Defined.

(** C10 as stated fails for a shorter prefix. Under [diphone/], of eight
    characters, the file of [ng-k] is stored under [g-k], so the look-up of
    that label finds a file; under [u/] files with seven more characters
    before the label are found, and the phrase [i] is synthesised. *)
Lemma short_prefix_lookup_counterexample :
  String.length "diphone/" ≠ 9%nat
  ∧ load_diphone_data (fun _ => ["diphone/ng-k.wav"]) "./diphone" !! "g-k"
    = Some "diphone/ng-k.wav"
  ∧ String.length "u/" ≠ 9%nat
  ∧ is_Ok (Synth_init Fixture.lower Fixture.word_tokenize Fixture.cmudict
             (fun _ => ["u/1234567pau-ay.wav"; "u/1234567ay-pau.wav"])
             Fixture.load (Spec.rescale 32767) Fixture.taper
             (Args false None None "./u" false) "i").
Proof.
  split; [vm_compute; lia|]. split; [vm_compute; reflexivity|].
  split; [vm_compute; lia|]. eexists. vm_compute. reflexivity.
Qed.

(** * Further properties of the code *)

(** ** Loops *)

(** An invariant of a [for ... in enumerate] loop that runs to its end. *)
Lemma for_enumerateM_from_invariant {A St} (body : nat -> A -> St -> result St)
    (P : nat -> St -> Prop) (l : list A) :
  (∀ i x s s', l !! i = Some x → P i s → body i x s = Ok s' → P (S i) s') →
  ∀ (rest : list A) (k : nat) (s s' : St),
    (∀ j, rest !! j = l !! (k + j)%nat) →
    (k + length rest)%nat = length l →
    P k s → Py.for_enumerateM body k rest s = Ok s' → P (length l) s'.
Proof.
  intros Hstep rest. induction rest as [|x rest IH]; intros k s s' Hrest Hlen HP Hrun.
  - simpl in *. injection Hrun as <-. by rewrite <- Hlen, Nat.add_0_r.
  - cbn [Py.for_enumerateM] in Hrun.
    destruct (body k x s) as [s1|e] eqn:Hb; [|done]. cbn [bind] in Hrun.
    apply (IH (S k) s1 s'); [| simpl in Hlen; lia | | done].
    + intros j. rewrite Nat.add_succ_comm. apply (Hrest (S j)).
    + apply (Hstep k x s s1); [|done|done].
      rewrite <- (Nat.add_0_r k). symmetry. apply (Hrest 0%nat).
Qed.

Lemma for_enumerateM_invariant {A St} (body : nat -> A -> St -> result St)
    (P : nat -> St -> Prop) (l : list A) (s s' : St) :
  (∀ i x s s', l !! i = Some x → P i s → body i x s = Ok s' → P (S i) s') →
  P 0%nat s → Py.for_enumerateM body 0 l s = Ok s' → P (length l) s'.
Proof.
  intros Hstep HP Hrun.
  by apply (for_enumerateM_from_invariant body P l Hstep l 0%nat s s').
Qed.

(** ** The markup scan, token by token *)

Lemma index_Ok_lookup {A} (l : list A) (k : Z) (x : A) :
  (0 ≤ k)%Z → Py.index l k = Ok x → l !! Z.to_nat k = Some x.
Proof.
  intros Hk. rewrite <- (Z2Nat.id k) at 1 by done. rewrite index_nat.
  by destruct (l !! Z.to_nat k); intros [= ->].
Qed.

(** What one iteration does to the lists and to [counter]: nothing to the
    lists, or one index appended to one of them under its guard; the counter
    stays or moves by one on a counted token. *)
Lemma scan_step_cases (tokens : list string) (i : nat) (word : string)
    (ix ix' : indices) (c c' : Z) :
  scan_step tokens i word (ix, c) = Ok (ix', c') →
  (c' = c ∨ (c' = (c + 1)%Z ∧ counted word = true))
  ∧ (ix' = ix
     ∨ (∃ prev, (0 < i)%nat ∧ tokens !! (i - 1)%nat = Some prev
                ∧ pause_mark prev = false ∧ Py.str_in word "," = true
                ∧ ix' = Indices (commas ix ++ [(Z.of_nat i - c - 1)%Z])
                                (stops ix) (marks ix))
     ∨ (∃ prev, (0 < i)%nat ∧ tokens !! (i - 1)%nat = Some prev
                ∧ pause_mark prev = false ∧ Py.str_in word "...;?!" = true
                ∧ ix' = Indices (commas ix)
                                (stops ix ++ [(Z.of_nat i - c - 1)%Z]) (marks ix))
     ∨ (∃ nxt, tokens !! (i + 2)%nat = Some nxt ∧ Py.str_in word "{" = true
               ∧ ix' = Indices (commas ix) (stops ix)
                               (marks ix ++ [(Z.of_nat i - c)%Z]))).
Proof.
  unfold scan_step, scan_body, counted, pause_mark. cbv zeta.
  assert (Hprev : ∀ prev, (0 <? Z.of_nat i)%Z = true →
            Py.index tokens (Z.of_nat i - 1) = Ok prev →
            (0 < i)%nat ∧ tokens !! (i - 1)%nat = Some prev).
  { intros prev Hi Hp. apply Z.ltb_lt in Hi. split; [lia|].
    apply index_Ok_lookup in Hp; [|lia].
    by replace (Z.to_nat (Z.of_nat i - 1)) with (i - 1)%nat in Hp by lia. }
  assert (Hnxt : ∀ nxt, Py.index tokens (Z.of_nat i + 2) = Ok nxt →
            tokens !! (i + 2)%nat = Some nxt).
  { intros nxt Hn. apply index_Ok_lookup in Hn; [|lia].
    by replace (Z.to_nat (Z.of_nat i + 2)) with (i + 2)%nat in Hn by lia. }
  destruct (Py.index tokens (Z.of_nat i - 1)) as [prev|e1] eqn:Hp;
    [specialize (Hprev prev)|apply index_raises in Hp; subst e1; clear Hprev];
  (destruct (Py.index tokens (Z.of_nat i + 2)) as [nxt|e2] eqn:Hn;
    [specialize (Hnxt nxt eq_refl)|apply index_raises in Hn; subst e2; clear Hnxt]);
  destruct (Py.str_in word ",") eqn:Hw1;
  destruct (Py.str_in word "...;?!") eqn:Hw2;
  destruct (Py.str_in word "{") eqn:Hw3;
  destruct (Py.str_in word Py.punctuation || Py.str_in word "...") eqn:Hcnt;
  cbn [bind negb andb];
  repeat (match goal with
          | |- context [if ?b then _ else _] =>
              let Hb := fresh "Hb" in destruct b eqn:Hb; cbn [bind negb andb]
          end);
  intros [= <- <-];
  (split; [first [by left | by right]|]);
  try (match goal with
       | H : negb _ && _ = true |- _ =>
           apply andb_true_iff in H as [?%negb_true_iff Hpos];
           destruct (Hprev Hpos eq_refl) as [? ?]
       end);
  first
    [ by left
    | right; left; eexists; repeat split; done
    | right; right; left; eexists; repeat split; done
    | right; right; right; eexists; repeat split; done ].
Qed.

(** The comma and stop entries after one iteration: those before it, or
    those and the index [i - counter - 1], recorded under its guard. *)
Lemma scan_step_pauses (tokens : list string) (i : nat) (word : string)
    (ix ix' : indices) (c c' : Z) :
  scan_step tokens i word (ix, c) = Ok (ix', c') →
  (c' = c ∨ (c' = (c + 1)%Z ∧ counted word = true))
  ∧ (commas ix' ++ stops ix' = commas ix ++ stops ix
     ∨ ∃ prev, (0 < i)%nat ∧ tokens !! (i - 1)%nat = Some prev
               ∧ pause_mark prev = false
               ∧ commas ix' ++ stops ix'
                 ≡ₚ (Z.of_nat i - c - 1)%Z :: (commas ix ++ stops ix)).
Proof.
  intros Hstep. apply scan_step_cases in Hstep as [Hc Hix].
  split; [exact Hc|].
  destruct Hix as [->|[(prev & Hi & Hp & Hm & _ & ->)
                      |[(prev & Hi & Hp & Hm & _ & ->)|(nxt & _ & _ & ->)]]];
    cbn [commas stops].
  - by left.
  - right. exists prev. repeat split; try done.
    rewrite <- app_assoc. cbn [app]. symmetry. apply Permutation_middle.
  - right. exists prev. repeat split; try done.
    rewrite app_assoc. symmetry. apply Permutation_cons_append.
  - by left.
Qed.

(** X1. When every token that moves the counter is one of the pause marks
    (no bracket, quote or other punctuation token in the phrase), the scan
    records each word position at most once: the comma and stop lists have
    no duplicates and no index in common. *)
Theorem scan_tokens_disjoint_without_other_punctuation
    (tokens : list string) (ix : indices) :
  (∀ w, w ∈ tokens → counted w = true → pause_mark w = true) →
  scan_tokens tokens no_indices = Ok ix →
  NoDup (commas ix) ∧ NoDup (stops ix) ∧ ∀ x, x ∈ commas ix → x ∉ stops ix.
Proof.
  intros Hpm Hscan. unfold scan_tokens in Hscan.
  destruct (Py.for_enumerateM (scan_step tokens) 0 tokens (no_indices, 0%Z))
    as [[ix1 c1]|e] eqn:Hrun; [|done].
  cbn [bind fst] in Hscan. injection Hscan as <-.
  set (Inv := fun (i : nat) (st : indices * Z) =>
    NoDup (commas st.1 ++ stops st.1)
    ∧ (∀ x, x ∈ commas st.1 ++ stops st.1 → (x ≤ Z.of_nat i - st.2 - 1)%Z)
    ∧ ((Z.of_nat i - st.2 - 1)%Z ∈ commas st.1 ++ stops st.1 →
       ∃ prev, (0 < i)%nat ∧ tokens !! (i - 1)%nat = Some prev
               ∧ pause_mark prev = true)).
  assert (Hstart : Inv 0%nat (no_indices, 0%Z)).
  { unfold Inv. cbn [fst snd commas stops no_indices app].
    split; [apply NoDup_nil_2|].
    split; [intros x Hx|intros Hx]; by apply elem_of_nil in Hx. }
  assert (Hend : Inv (length tokens) (ix1, c1)).
  { apply (for_enumerateM_invariant (scan_step tokens) Inv tokens
             (no_indices, 0%Z) (ix1, c1)); [|done|done].
    clear Hrun Hstart ix1 c1. intros i word [ix0 c0] [ix1 c1] Hword (Hnd & Hle & Hlast) Hstep.
    apply scan_step_pauses in Hstep as [Hc HL]. unfold Inv in *. cbn [fst snd] in *.
    assert (Hnext : c1 = (c0 + 1)%Z → counted word = true →
              ∃ prev, (0 < S i)%nat ∧ tokens !! (S i - 1)%nat = Some prev
                      ∧ pause_mark prev = true).
    { intros _ Hcnt. exists word. split; [lia|].
      replace (S i - 1)%nat with i by lia. split; [done|].
      apply Hpm; [|done]. by eapply list_elem_of_lookup_2. }
    destruct HL as [->|(prev & Hi & Hp & Hm & Hperm)].
    - split; [done|]. split.
      + intros x Hx. specialize (Hle x Hx). destruct Hc as [->|[-> _]]; lia.
      + intros Hin. destruct Hc as [->|[-> Hcnt]]; [|by apply Hnext].
        specialize (Hle _ Hin). lia.
    - assert (Hfresh : (Z.of_nat i - c0 - 1)%Z ∉ commas ix0 ++ stops ix0).
      { intros Hin. destruct (Hlast Hin) as (prev' & _ & Hp' & Hm'). congruence. }
      split; [rewrite Hperm; by apply NoDup_cons|]. split.
      + intros x Hx. rewrite Hperm in Hx. apply elem_of_cons in Hx as [->|Hx].
        * destruct Hc as [->|[-> _]]; lia.
        * specialize (Hle x Hx). destruct Hc as [->|[-> _]]; lia.
      + intros Hin. destruct Hc as [->|[-> Hcnt]]; [|by apply Hnext].
        rewrite Hperm in Hin. apply elem_of_cons in Hin as [Heq|Hin]; [lia|].
        specialize (Hle _ Hin). lia. }
  destruct Hend as (Hnd & _ & _). cbn [fst] in Hnd.
  apply NoDup_app in Hnd as (? & ? & ?). done.
Qed.

Lemma scan_tokens_disjoint_without_other_punctuation_witness :
  NoDup (commas (Indices [0%Z] [1%Z] [])) ∧ NoDup (stops (Indices [0%Z] [1%Z] []))
  ∧ ∀ x, x ∈ commas (Indices [0%Z] [1%Z] []) → x ∉ stops (Indices [0%Z] [1%Z] []).
Proof.
  apply (scan_tokens_disjoint_without_other_punctuation
           ["hello"; ","; "world"; "."] (Indices [0%Z] [1%Z] [])).
  - intros w Hw.
    repeat (apply elem_of_cons in Hw as [->|Hw]; [vm_compute; congruence|]).
    by apply elem_of_nil in Hw.
  - reflexivity.
Defined.

(** X2. The scan always returns, and what it records is within bounds: a
    comma or stop index lies between -1 and the number of tokens less two,
    an emphasis index between 0 and the number of tokens less three. *)
Theorem scan_tokens_bounds (tokens : list string) :
  ∃ ix, scan_tokens tokens no_indices = Ok ix
        ∧ (∀ x, x ∈ commas ix ++ stops ix →
             (-1 ≤ x ≤ Z.of_nat (length tokens) - 2)%Z)
        ∧ (∀ x, x ∈ marks ix → (0 ≤ x ≤ Z.of_nat (length tokens) - 3)%Z).
Proof.
  destruct (scan_tokens_Ok tokens no_indices) as [ix Hscan].
  exists ix. split; [done|].
  unfold scan_tokens in Hscan.
  destruct (Py.for_enumerateM (scan_step tokens) 0 tokens (no_indices, 0%Z))
    as [[ix1 c1]|e] eqn:Hrun; [|done].
  cbn [bind fst] in Hscan. injection Hscan as <-.
  set (Inv := fun (i : nat) (st : indices * Z) =>
    (0 ≤ st.2 ≤ Z.of_nat i)%Z
    ∧ (∀ x, x ∈ commas st.1 ++ stops st.1 → (-1 ≤ x ≤ Z.of_nat i - 2)%Z)
    ∧ (∀ x, x ∈ marks st.1 → (0 ≤ x ≤ Z.of_nat (length tokens) - 3)%Z)).
  assert (Hstart : Inv 0%nat (no_indices, 0%Z)).
  { unfold Inv. cbn [fst snd commas stops marks no_indices app].
    split; [lia|]. split; intros x Hx; by apply elem_of_nil in Hx. }
  assert (Hend : Inv (length tokens) (ix1, c1)).
  { apply (for_enumerateM_invariant (scan_step tokens) Inv tokens
             (no_indices, 0%Z) (ix1, c1)); [|done|done].
    clear Hrun Hstart ix1 c1.
    intros i word [ix0 c0] [ix1 c1] Hword (Hc0 & Hps & Hms) Hstep.
    pose proof (lookup_lt_Some _ _ _ Hword) as Hi.
    apply scan_step_cases in Hstep as [Hc Hix]. unfold Inv in *.
    cbn [fst snd] in *.
    split; [destruct Hc as [->|[-> _]]; lia|].
    destruct Hix as [->|[(prev & Hpos & _ & _ & _ & ->)
                        |[(prev & Hpos & _ & _ & _ & ->)|(nxt & Hn & _ & ->)]]];
      cbn [commas stops marks].
    - split; [|done]. intros x Hx. specialize (Hps x Hx). lia.
    - split; [|done]. intros x Hx. rewrite <- app_assoc in Hx. cbn [app] in Hx.
      apply elem_of_app in Hx as [Hx|[->|Hx]%elem_of_cons].
      + specialize (Hps x (proj2 (elem_of_app _ _ _) (or_introl Hx))). lia.
      + lia.
      + specialize (Hps x (proj2 (elem_of_app _ _ _) (or_intror Hx))). lia.
    - split; [|done]. intros x Hx. rewrite app_assoc in Hx.
      apply elem_of_app in Hx as [Hx|Hx%list_elem_of_singleton].
      + specialize (Hps x Hx). lia.
      + lia.
    - split.
      + intros x Hx. specialize (Hps x Hx). lia.
      + intros x [Hx|Hx%list_elem_of_singleton]%elem_of_app; [by apply Hms|].
        apply lookup_lt_Some in Hn. lia. }
  destruct Hend as (_ & Hps & Hms). cbn [fst] in *. split; [|done].
  intros x Hx. specialize (Hps x Hx). lia.
Qed.

(** X3. A token list without a comma, a stop mark or an opening brace
    leaves the three lists as they were: no pause and no emphasis is
    recorded. *)
Theorem scan_tokens_plain (tokens : list string) (ix : indices) :
  (∀ w, w ∈ tokens → Py.str_in w "," = false ∧ Py.str_in w "...;?!" = false
                     ∧ Py.str_in w "{" = false) →
  scan_tokens tokens ix = Ok ix.
Proof.
  intros Hplain.
  destruct (scan_tokens_Ok tokens ix) as [ix' Hscan]. rewrite Hscan. f_equal.
  unfold scan_tokens in Hscan.
  destruct (Py.for_enumerateM (scan_step tokens) 0 tokens (ix, 0%Z))
    as [[ix1 c1]|e] eqn:Hrun; [|done].
  cbn [bind fst] in Hscan. injection Hscan as <-.
  apply (for_enumerateM_invariant (scan_step tokens)
           (fun _ st => st.1 = ix) tokens (ix, 0%Z) (ix1, c1)); [|done|done].
  intros i word [ix0 c0] [ix2 c2] Hword Hinv Hstep. cbn [fst] in *. subst ix0.
  destruct (Hplain word) as (H1 & H2 & H3); [by eapply list_elem_of_lookup_2|].
  apply scan_step_cases in Hstep as [_ Hix].
  destruct Hix as [->|[(? & _ & _ & _ & ? & _)
                      |[(? & _ & _ & _ & ? & _)|(? & _ & ? & _)]]];
    [done|congruence..].
Qed.

Lemma scan_tokens_plain_witness :
  scan_tokens ["hello"; "world"] no_indices = Ok no_indices.
Proof.
  apply (scan_tokens_plain ["hello"; "world"] no_indices).
  intros w Hw.
  repeat (apply elem_of_cons in Hw as [->|Hw]; [by vm_compute|]).
  by apply elem_of_nil in Hw.
Defined.

(** ** The stops put between the tokens of a spelled phrase *)

Lemma interleave_shift (rest : list string) (k : nat) (a b : string)
    (tl : list string) :
  Py.for_enumerate (fun k tok t => <[(2 * k)%nat := tok]> t) (S k) rest (a :: b :: tl)
  = a :: b :: Py.for_enumerate (fun k tok t => <[(2 * k)%nat := tok]> t) k rest tl.
Proof.
  revert k tl. induction rest as [|x rest IH]; intros k tl; [done|].
  cbn [Py.for_enumerate].
  replace (2 * S k)%nat with (S (S (2 * k))) by lia.
  cbn [insert list_insert]. apply IH.
Qed.

Lemma interleave_stops_nil : interleave_stops [] = [].
Proof. reflexivity. Qed.

Lemma interleave_stops_one (t : string) : interleave_stops [t] = [t].
Proof. reflexivity. Qed.

Lemma interleave_stops_cons (t t' : string) (ts : list string) :
  interleave_stops (t :: t' :: ts) = t :: "." :: interleave_stops (t' :: ts).
Proof.
  unfold interleave_stops. cbv zeta. cbn [length].
  replace (Z.to_nat (Z.of_nat (S (S (length ts))) * 2 - 1))
    with (S (S (Z.to_nat (Z.of_nat (S (length ts)) * 2 - 1)))) by lia.
  cbn [replicate Py.for_enumerate].
  change (2 * 0)%nat with 0%nat. cbn [insert list_insert].
  apply (interleave_shift (t' :: ts) 0).
Qed.

(** The places of the spelled list, by induction on the tokens. *)
Lemma interleave_stops_lookup (tokens : list string) :
  length (interleave_stops tokens) = (2 * length tokens - 1)%nat
  ∧ (∀ k, interleave_stops tokens !! (2 * k)%nat = tokens !! k)
  ∧ (∀ k, interleave_stops tokens !! (2 * k + 1)%nat
          = if decide (S k < length tokens)%nat then Some "." else None).
Proof.
  induction tokens as [|t [|t' ts] IH].
  - split; [done|]. split.
    + by intros k.
    + intros k. rewrite decide_False by (simpl; lia). done.
  - rewrite interleave_stops_one. split; [done|]. split.
    + intros [|k]; [done|]. by replace (2 * S k)%nat with (S (S (2 * k))) by lia.
    + intros k. rewrite decide_False by (simpl; lia).
      by replace (2 * k + 1)%nat with (S (2 * k)) by lia.
  - rewrite interleave_stops_cons. destruct IH as (Hlen & Heven & Hodd).
    split; [|split].
    + cbn [length] in *. rewrite Hlen. lia.
    + intros [|k]; [done|].
      replace (2 * S k)%nat with (S (S (2 * k))) by lia.
      cbn [lookup list_lookup]. apply Heven.
    + intros [|k].
      * cbn. rewrite decide_True by (simpl; lia). done.
      * replace (2 * S k + 1)%nat with (S (S (2 * k + 1))) by lia.
        cbn [lookup list_lookup]. rewrite Hodd.
        cbn [length]. repeat case_decide; (done || lia).
Qed.

(** X4. In spell mode the scanned list has the tokens at its even places
    and a stop at each odd place between two tokens: its length is twice the
    number of tokens less one, and it is empty for no token. *)
Theorem interleave_stops_places (tokens : list string) :
  length (interleave_stops tokens) = (2 * length tokens - 1)%nat
  ∧ (∀ k, interleave_stops tokens !! (2 * k)%nat = tokens !! k)
  ∧ (∀ k, interleave_stops tokens !! (2 * k + 1)%nat
          = if decide (S k < length tokens)%nat then Some "." else None).
Proof. apply interleave_stops_lookup. Qed.

(** At an odd place of the spelled list stands a stop, and before an even
    place other than the first stands a stop. *)
Lemma interleave_stops_odd (tokens : list string) (i : nat) (word : string) :
  interleave_stops tokens !! i = Some word → Nat.Odd i → word = ".".
Proof.
  intros Hw [k ->]. destruct (interleave_stops_lookup tokens) as (_ & _ & Hodd).
  rewrite Hodd in Hw. case_decide; congruence.
Qed.

Lemma interleave_stops_before_even (tokens : list string) (i : nat) (word : string) :
  interleave_stops tokens !! i = Some word → Nat.Even i → (0 < i)%nat →
  interleave_stops tokens !! (i - 1)%nat = Some ".".
Proof.
  intros Hw [k ->] Hpos.
  destruct (interleave_stops_lookup tokens) as (_ & Heven & Hodd).
  rewrite Heven in Hw. apply lookup_lt_Some in Hw.
  replace (2 * k - 1)%nat with (2 * (k - 1) + 1)%nat by lia.
  rewrite Hodd. apply decide_True. lia.
Qed.

(** The scan of a spelled list never appends to the comma list. *)
Lemma scan_spelled_commas (tokens : list string) (ix0 ix : indices) :
  scan_tokens (interleave_stops tokens) ix0 = Ok ix → commas ix = commas ix0.
Proof.
  intros Hscan. unfold scan_tokens in Hscan.
  destruct (Py.for_enumerateM (scan_step (interleave_stops tokens)) 0
              (interleave_stops tokens) (ix0, 0%Z)) as [[ix1 c1]|e] eqn:Hrun; [|done].
  cbn [bind fst] in Hscan. injection Hscan as <-.
  apply (for_enumerateM_invariant (scan_step (interleave_stops tokens))
           (fun _ st => commas st.1 = commas ix0) (interleave_stops tokens)
           (ix0, 0%Z) (ix1, c1)); [|done|done].
  intros i word [ixa ca] [ixb cb] Hword Hinv Hstep. cbn [fst] in *.
  apply scan_step_cases in Hstep as [_ Hix].
  destruct Hix as [->|[(prev & Hpos & Hprev & Hm & Hw & ->)
                      |[(prev & _ & _ & _ & _ & ->)|(nxt & _ & _ & ->)]]];
    cbn [commas]; try done.
  exfalso. destruct (Nat.Even_or_Odd i) as [Hev|Hod].
  - rewrite (interleave_stops_before_even tokens i word Hword Hev Hpos) in Hprev.
    injection Hprev as <-. by vm_compute in Hm.
  - rewrite (interleave_stops_odd tokens i word Hword Hod) in Hw.
    by vm_compute in Hw.
Qed.

(** X5. A spelled phrase never gets a comma pause: with [spell] set, the
    comma list that [__init__] hands to the synthesis is empty, whatever the
    phrase and the reverse mode. *)
Theorem spelled_phrase_has_no_comma
    (lower : string -> string) (word_tokenize : string -> list string)
    (phrase : string) (reverse : option reverse_mode)
    (words : list string) (ix : indices) :
  init_markup lower word_tokenize phrase true reverse = Ok (words, ix) →
  commas ix = [].
Proof.
  unfold init_markup, phrase_to_words. cbv zeta.
  destruct (scan_tokens (interleave_stops (word_tokenize (lower phrase))) no_indices)
    as [ix1|e] eqn:Hscan; [|done].
  apply scan_spelled_commas in Hscan. cbn [commas no_indices] in Hscan.
  cbn [bind]. unfold spell_step. cbv zeta.
  destruct reverse as [[| |]|]; cbn; intros [= <- <-]; cbn; by rewrite ?Hscan.
Qed.

Lemma spelled_phrase_has_no_comma_witness :
  commas (Indices [] [1%Z] []) = [].
Proof.
  apply (spelled_phrase_has_no_comma Fixture.lower Fixture.word_tokenize
           "hi, a" None ["h"; "i"; "a"] (Indices [] [1%Z] [])).
  reflexivity.
Defined.

(** ** Letters, stress digits and reversed positions *)

Lemma join_chars (w : string) : Py.join (Py.chars w) = w.
Proof.
  induction w as [|c w IH]; [done|].
  cbn [Py.chars]. unfold Py.join in *. cbn [foldr]. rewrite IH. reflexivity.
Qed.

Lemma string_app_assoc (a b c : string) : (a +:+ b) +:+ c = a +:+ (b +:+ c).
Proof.
  induction a as [|x a IH]; [done|].
  change ((String x a +:+ b) +:+ c) with (String x ((a +:+ b) +:+ c)).
  change (String x a +:+ (b +:+ c)) with (String x (a +:+ (b +:+ c))).
  by rewrite IH.
Qed.

Lemma join_app (l1 l2 : list string) :
  Py.join (l1 ++ l2) = Py.join l1 +:+ Py.join l2.
Proof.
  induction l1 as [|x l1 IH]; [done|].
  cbn [app]. unfold Py.join in *. cbn [foldr]. by rewrite IH, string_app_assoc.
Qed.

(** X6. Spelling keeps the text: the letters of [words_to_letters], joined,
    are the words joined; every letter is one character, and there are as
    many letters as the words have characters. *)
Theorem words_to_letters_join (words : list string) :
  Py.join (words_to_letters words) = Py.join words
  ∧ Forall (fun letter => String.length letter = 1%nat) (words_to_letters words)
  ∧ Z.of_nat (length (words_to_letters words))
    = Py.sum ((fun w => Z.of_nat (String.length w)) <$> words).
Proof.
  split; [|split].
  - induction words as [|w words IH]; [done|].
    change (words_to_letters (w :: words)) with (Py.chars w ++ words_to_letters words).
    rewrite join_app, join_chars, IH. done.
  - unfold words_to_letters. apply Forall_concat, Forall_fmap, Forall_forall.
    intros w _. induction w as [|c w IH]; constructor; done.
  - by rewrite sum_word_lengths.
Qed.




(** X8. The index remapping of a reversal points at the same element: when
    a list as long as the words is reversed, what stood at position [i] is
    found at [len(words)-1-i]. This is the word itself for
    [reverse == "words"] and its phoneme list for [reverse == "phones"]. *)
Theorem reverse_index_same_element {A} (l : list A) (words : list string)
    (i : nat) (x : A) :
  length l = length words →
  l !! i = Some x →
  (0 ≤ reverse_index words (Z.of_nat i))%Z
  ∧ rev l !! Z.to_nat (reverse_index words (Z.of_nat i)) = Some x
  ∧ reverse_index words (reverse_index words (Z.of_nat i)) = Z.of_nat i.
Proof.
  intros Hlen Hx. pose proof (lookup_lt_Some _ _ _ Hx) as Hi.
  unfold reverse_index. split; [lia|]. split; [|lia].
  rewrite rev_alt. change (rev_append l []) with (reverse l).
  rewrite reverse_lookup by lia. rewrite <- Hx. f_equal. lia.
Qed.

Lemma reverse_index_same_element_witness :
  rev ["hello"; "big"; "world"]
    !! Z.to_nat (reverse_index (rev ["hello"; "big"; "world"]) 0) = Some "hello".
Proof.
  apply (reverse_index_same_element ["hello"; "big"; "world"]
           (rev ["hello"; "big"; "world"]) 0 "hello"); reflexivity.
Defined.

(** ** The unit table *)

(** X9. When two wav files have the same key, the table keeps the one that
    comes last: a file is found under its key when no later file of the
    folder has that key. A label that is the key of no file is not in the
    table. *)
Theorem load_diphone_data_last_wins (glob_wav : string -> list string)
    (wav_folder : string) (before after : list string) (wav_file : string) :
  glob_wav wav_folder = before ++ wav_file :: after →
  (∀ g, g ∈ after → diphone_key g ≠ diphone_key wav_file) →
  load_diphone_data glob_wav wav_folder !! diphone_key wav_file = Some wav_file
  ∧ ∀ diphone, (∀ g, g ∈ glob_wav wav_folder → diphone_key g ≠ diphone) →
               load_diphone_data glob_wav wav_folder !! diphone = None.
Proof.
  intros Hglob Hafter. split.
  - unfold load_diphone_data. rewrite Hglob, foldl_app. cbn [foldl].
    generalize (foldl (fun (d : gmap string string) f => <[diphone_key f := f]> d)
                      ∅ before).
    intros table. clear Hglob.
    induction after as [|g after IH] using rev_ind.
    + cbn [foldl]. apply lookup_insert_eq.
    + rewrite foldl_app. cbn [foldl].
      rewrite lookup_insert_ne
        by (apply Hafter, elem_of_app; right; apply list_elem_of_singleton; done).
      apply IH. intros g' Hg'. apply Hafter, elem_of_app. by left.
  - intros diphone Hnone.
    destruct (load_diphone_data glob_wav wav_folder !! diphone) as [f|] eqn:Hl;
      [|done].
    apply load_diphone_data_lookup in Hl as [Hin Hkey]. by destruct (Hnone f Hin).
Qed.

Lemma load_diphone_data_last_wins_witness :
  load_diphone_data (fun _ => ["diphones/a-b.wav"; "diphones/a-b.wav"; "diphones/b-c.wav"])
                    "./diphones" !! diphone_key "diphones/a-b.wav"
  = Some "diphones/a-b.wav".
Proof.
  apply (load_diphone_data_last_wins
           (fun _ => ["diphones/a-b.wav"; "diphones/a-b.wav"; "diphones/b-c.wav"])
           "./diphones" ["diphones/a-b.wav"] ["diphones/b-c.wav"] "diphones/a-b.wav").
  - reflexivity.
  - intros g Hg. apply list_elem_of_singleton in Hg as ->. by vm_compute.
Defined.

(** ** Assembly without crossfade, and missing units *)

Lemma for_enumerateM_app {A St} (body : nat -> A -> St -> result St)
    (l1 l2 : list A) (k : nat) (s : St) :
  Py.for_enumerateM body k (l1 ++ l2) s
  = (let* s1 := Py.for_enumerateM body k l1 s in
     Py.for_enumerateM body (k + length l1) l2 s1).
Proof.
  revert k s. induction l1 as [|x l1 IH]; intros k s.
  - cbn. by rewrite Nat.add_0_r.
  - cbn [app Py.for_enumerateM length]. destruct (body k x s) as [s1|e]; [|done].
    cbn [bind]. rewrite IH. by replace (S k + length l1)%nat with (k + S (length l1))%nat by lia.
Qed.

Section PlainAssembly.

Variable load : string -> list Z.
Variable rescale : Qc -> list Z -> result (list Z).
Variable taper : nat -> Z -> Z -> Z.
Variable diphones_dict : gmap string string.

(** Without crossfade the diphone loop appends each unit as it was loaded
    and leaves the held tail alone. *)
Lemma plain_units_loop (n_words i : nat) (word0 word : list string)
    (files : list string) :
  Forall2 (fun diphone wav_file => diphones_dict !! diphone = Some wav_file)
          word files →
  ∀ (j : nat) (word_audio : list Z) (prev : option (list Z)),
    Py.for_enumerateM (diphone_body load taper diphones_dict false n_words i word0)
                      j word (word_audio, prev)
    = Ok (word_audio ++ concat (load <$> files), prev).
Proof.
  induction 1 as [|diphone wav_file word files Hd _ IH]; intros j word_audio prev.
  - cbn. by rewrite app_nil_r.
  - cbn [Py.for_enumerateM]. unfold diphone_body at 1. rewrite Hd.
    cbn [bind fst snd]. rewrite IH. cbn [fmap list_fmap concat].
    by rewrite app_assoc.
Qed.

(** A word whose index is in no emphasis list keeps the buffer of its units
    and pauses. *)
Lemma word_emphasis_unmarked (ix : indices) (i : nat) (word_audio : list Z) :
  marks ix = [] → word_emphasis rescale ix i word_audio = Ok word_audio.
Proof. intros Hm. unfold word_emphasis. by rewrite Hm. Qed.

Lemma plain_words_loop (ix : indices) (n_words : nat)
    (rest : list (list string)) (files : list (list string)) :
  marks ix = [] →
  Forall2 (Forall2 (fun diphone wav_file => diphones_dict !! diphone = Some wav_file))
          rest files →
  ∀ (k : nat) (synth_audio : list Z) (prev : option (list Z)),
    Py.for_enumerateM (word_body load rescale taper diphones_dict false ix n_words)
                      k rest (synth_audio, prev)
    = Ok (synth_audio
          ++ concat (imap (fun i fs => word_pauses ix (k + i) (concat (load <$> fs)))
                          files),
          prev).
Proof.
  intros Hm. induction 1 as [|word fs rest files Hword _ IH];
    intros k synth_audio prev.
  - cbn. by rewrite app_nil_r.
  - cbn [Py.for_enumerateM]. unfold word_body at 1. unfold word_units.
    rewrite (plain_units_loop n_words k word word fs Hword). cbn [bind fst snd app].
    rewrite word_emphasis_unmarked by done. cbn [bind].
    rewrite IH. rewrite imap_cons. cbn [concat]. rewrite Nat.add_0_r, app_assoc.
    do 4 f_equal. apply imap_ext. intros j fs' _. cbn. f_equal. lia.
Qed.

(** X10. Without crossfade, emphasis and volume, the utterance is the plain
    concatenation, word after word, of the units of the word as they were
    loaded, followed by the pauses of the word. *)
Theorem diphones_to_wav_plain_concatenation
    (ix : indices) (diphones : list (list string)) (files : list (list string)) :
  marks ix = [] →
  Forall2 (Forall2 (fun diphone wav_file => diphones_dict !! diphone = Some wav_file))
          diphones files →
  diphones_to_wav load rescale taper diphones diphones_dict ix false None None
  = Ok (concat (imap (fun i fs => word_pauses ix i (concat (load <$> fs))) files)).
Proof.
  intros Hm Hfiles. unfold diphones_to_wav.
  rewrite (plain_words_loop ix (length diphones) diphones files Hm Hfiles).
  cbn [bind fst apply_volume app]. done.
Qed.

(** X11. A label without a wav file ends the assembly with the exit that
    names it, whatever the volume and the reverse mode, when the words
    before it and the labels before it in its word have their files: the
    first missing label is the one reported, and no buffer is returned. *)
Theorem diphones_to_wav_first_missing_label
    (ix : indices) (done_words later : list (list string))
    (done_files : list (list string)) (found rest : list string)
    (found_files : list string) (diphone : string)
    (volume : option Z) (reverse : option reverse_mode) :
  marks ix = [] →
  Forall2 (Forall2 (fun d wav_file => diphones_dict !! d = Some wav_file))
          done_words done_files →
  Forall2 (fun d wav_file => diphones_dict !! d = Some wav_file) found found_files →
  diphones_dict !! diphone = None →
  diphones_to_wav load rescale taper
                  (done_words ++ (found ++ diphone :: rest) :: later)
                  diphones_dict ix false volume reverse
  = Raise (SystemExit_diphone diphone).
Proof.
  intros Hm Hdone Hfound Hnone. unfold diphones_to_wav.
  rewrite for_enumerateM_app.
  rewrite (plain_words_loop ix _ done_words done_files Hm Hdone). cbn [bind].
  cbn [Py.for_enumerateM]. unfold word_body at 1. unfold word_units.
  rewrite for_enumerateM_app.
  rewrite (plain_units_loop _ _ _ found found_files Hfound). cbn [bind].
  cbn [Py.for_enumerateM]. unfold diphone_body at 1. rewrite Hnone. done.
Qed.

End PlainAssembly.

Lemma diphones_to_wav_plain_concatenation_witness :
  diphones_to_wav Fixture.load (Spec.rescale 32767) Fixture.taper
                  [["pau-ay"; "ay-ae"]; ["ae-m"; "m-pau"]]
                  (load_diphone_data Fixture.glob_wav "./diphones")
                  (Indices [0%Z] [1%Z] []) false None None
  = Ok (concat (imap (fun i fs => word_pauses (Indices [0%Z] [1%Z] []) i
                                    (concat (Fixture.load <$> fs)))
                     [["diphones/pau-ay.wav"; "diphones/ay-ae.wav"];
                      ["diphones/ae-m.wav"; "diphones/m-pau.wav"]])).
Proof.
  apply (diphones_to_wav_plain_concatenation Fixture.load (Spec.rescale 32767)
           Fixture.taper (load_diphone_data Fixture.glob_wav "./diphones")).
  - reflexivity.
  - repeat constructor.
Defined.

Lemma diphones_to_wav_first_missing_label_witness :
  diphones_to_wav Fixture.load (Spec.rescale 32767) Fixture.taper
                  ([["pau-ay"; "ay-ae"]] ++ (["ae-m"] ++ "m-l" :: ["l-pau"]) :: [])
                  (load_diphone_data Fixture.glob_wav "./diphones")
                  no_indices false (Some 50%Z) None
  = Raise (SystemExit_diphone "m-l").
Proof.
  apply (diphones_to_wav_first_missing_label Fixture.load (Spec.rescale 32767)
           Fixture.taper (load_diphone_data Fixture.glob_wav "./diphones")
           no_indices [["pau-ay"; "ay-ae"]] []
           [["diphones/pau-ay.wav"; "diphones/ay-ae.wav"]]
           ["ae-m"] ["l-pau"] ["diphones/ae-m.wav"] "m-l" (Some 50%Z) None).
  - reflexivity.
  - repeat constructor.
  - repeat constructor.
  - reflexivity.
Defined.

(** ** Reversing the signal *)

(** X12. For a phrase that is not spelled, [reverse == "signal"] changes
    nothing but the order of the samples: the construction raises what the
    plain construction raises, and returns its samples reversed. *)
Theorem Synth_init_signal_reversed
    (lower : string -> string) (word_tokenize : string -> list string)
    (cmudict : gmap string (list (list string)))
    (glob_wav : string -> list string) (load : string -> list Z)
    (rescale : Qc -> list Z -> result (list Z)) (taper : nat -> Z -> Z -> Z)
    (volume : option Z) (wav_folder : string) (crossfade : bool)
    (phrase : string) :
  Synth_init lower word_tokenize cmudict glob_wav load rescale taper
             (Args false (Some rev_signal) volume wav_folder crossfade) phrase
  = match Synth_init lower word_tokenize cmudict glob_wav load rescale taper
                     (Args false None volume wav_folder crossfade) phrase with
    | Ok out => Ok (rev out)
    | Raise e => Raise e
    end.
Proof.
  unfold Synth_init, init_markup.
  cbn [arg_spell arg_reverse arg_volume arg_diphones arg_crossfade].
  rewrite !andb_false_r.
  destruct (phrase_to_words lower word_tokenize phrase false no_indices)
    as [[ix words]|e]; [|done]. cbn [bind].
  destruct (words_to_phones lower cmudict words ix) as [phones|e]; [|done].
  cbn [bind].
  destruct (phones_to_diphones phones) as [diphones|e]; [|done]. cbn [bind].
  unfold diphones_to_wav.
  destruct (Py.for_enumerateM _ 0 diphones ([], None)) as [st|e]; [|done].
  cbn [bind]. by destruct (apply_volume rescale volume st.1).
Qed.

(** ** Words without an entry *)

Section UnknownWords.

Variable lower : string -> string.
Variable cmudict : gmap string (list (list string)).

(** X13. [words_to_phones] returns phoneme lists only when every word of
    the utterance has a dictionary entry, and then one list for each word:
    a missing word, wherever it stands, leaves no output. *)
Theorem words_to_phones_needs_every_word
    (words : list string) (ix : indices) (phones : list (list string)) :
  words_to_phones lower cmudict words ix = Ok phones →
  length phones = length words
  ∧ ∀ w, w ∈ words → is_Some (cmudict !! w).
Proof.
  intros Hrun. apply to_option_Ok in Hrun. unfold words_to_phones in Hrun.
  rewrite words_to_phones_loop in Hrun by done.
  destruct (mapM (Spec.boundary_policy lower cmudict words ix)
                 (seq 0 (length words))) as [es|] eqn:Hm; [|done].
  cbn in Hrun. injection Hrun as <-.
  apply mapM_Some in Hm. split.
  - apply Forall2_length in Hm. by rewrite length_seq in Hm.
  - intros w Hw. apply list_elem_of_lookup in Hw as [i Hi].
    pose proof (lookup_lt_Some _ _ _ Hi) as Hlt.
    destruct (Forall2_lookup_l _ _ _ i i Hm) as (e & _ & He).
    { apply lookup_seq. lia. }
    unfold Spec.boundary_policy in He. cbv zeta in He. rewrite Hi in He.
    cbn [mbind option_bind] in He. unfold Spec.phones in He.
    destruct (cmudict !! w); [by eexists|done].
Qed.

Lemma words_to_phones_body_error (words : list string) (ix : indices)
    (i : nat) (word : string) (acc : list (list string)) (e : exn) :
  entries_pronounced cmudict →
  words !! i = Some word →
  words_to_phones_body lower cmudict words ix i word acc = Raise e →
  ∃ w, w ∈ words ∧ cmudict !! w = None
       ∧ (e = SystemExit_word w ∨ e = KeyError w).
Proof.
  intros Hdict Hword. unfold words_to_phones_body.
  pose proof (lookup_lt_Some _ _ _ Hword) as Hlt.
  destruct (cmudict !! word) as [prons|] eqn:Hentry.
  2:{ intros [= <-]. exists word. split; [by eapply list_elem_of_lookup_2|]. eauto. }
  destruct (Hdict word prons Hentry) as (p & ps & more & ->).
  cbn [Py.index length lookup list_lookup bind Z.ltb Z.compare Z.to_nat].
  assert (Hnext : (S i < length words)%nat →
            ∀ e', next_first_phone lower cmudict words i = Raise e' →
            ∃ w, w ∈ words ∧ cmudict !! w = None ∧ e' = KeyError w).
  { intros Hs e'. unfold next_first_phone. rewrite index_succ.
    destruct (lookup_lt_is_Some_2 words (S i) Hs) as [w' Hw']. rewrite Hw'.
    cbn [bind]. unfold Py.getitem.
    destruct (cmudict !! w') as [prons'|] eqn:Hentry'.
    - destruct (Hdict w' prons' Hentry') as (p' & ps' & more' & ->).
      cbn [bind]. done.
    - cbn [bind]. intros [= <-]. exists w'.
      split; [by eapply list_elem_of_lookup_2|]. eauto. }
  destruct (Nat.eqb_spec (length words) 1) as [HN|HN]; [done|].
  destruct (Nat.eqb_spec i 0) as [Hi|Hi]; destruct (paused ix i);
    cbn [andb negb orb]; try done.
  - destruct (next_first_phone lower cmudict words i) as [f|e'] eqn:Hf; [done|].
    cbn [bind]. intros [= <-].
    destruct (Hnext ltac:(lia) e' eq_refl) as (w & ? & ? & ->). eauto.
  - destruct (Z.eqb_spec (Z.of_nat i) (Z.of_nat (length words) - 1)); [done|].
    destruct (next_first_phone lower cmudict words i) as [f|e'] eqn:Hf; [done|].
    cbn [bind]. intros [= <-].
    destruct (Hnext ltac:(lia) e' eq_refl) as (w & ? & ? & ->). eauto.
Qed.

Lemma words_to_phones_loop_error (words : list string) (ix : indices) :
  entries_pronounced cmudict →
  ∀ (rest : list string) (i : nat) (acc : list (list string)) (e : exn),
    (∀ k, rest !! k = words !! (i + k)%nat) →
    Py.for_enumerateM (words_to_phones_body lower cmudict words ix) i rest acc
    = Raise e →
    ∃ w, w ∈ words ∧ cmudict !! w = None
         ∧ (e = SystemExit_word w ∨ e = KeyError w).
Proof.
  intros Hdict rest. induction rest as [|word rest IH]; intros i acc e Hrest; [done|].
  cbn [Py.for_enumerateM].
  destruct (words_to_phones_body lower cmudict words ix i word acc)
    as [acc'|e'] eqn:Hbody; cbn [bind].
  - apply IH. intros k. rewrite Nat.add_succ_comm. apply (Hrest (S k)).
  - intros [= <-]. eapply words_to_phones_body_error; [done| |done].
    rewrite <- (Nat.add_0_r i). symmetry. apply (Hrest 0%nat).
Qed.

(** X14. With a dictionary whose entries all have a first pronunciation
    that is not empty, [words_to_phones] fails in one way only: on a word of
    the utterance that has no entry, which the exception names, be it the
    exit (the loop reached the word) or a [KeyError] (the look-ahead of the
    word before it did). *)
Theorem words_to_phones_error_names_missing_word
    (words : list string) (ix : indices) (e : exn) :
  entries_pronounced cmudict →
  words_to_phones lower cmudict words ix = Raise e →
  ∃ w, w ∈ words ∧ cmudict !! w = None
       ∧ (e = SystemExit_word w ∨ e = KeyError w).
Proof.
  intros Hdict Hrun.
  by apply (words_to_phones_loop_error words ix Hdict words 0%nat [] e).
Qed.

End UnknownWords.

Lemma words_to_phones_needs_every_word_witness :
  length [["pau"; "hh"; "ah"; "l"; "ow"; "pau"]; ["w"; "er"; "l"; "d"; "pau"]]
  = length ["hello"; "world"]
  ∧ ∀ w, w ∈ ["hello"; "world"] → is_Some (Fixture.cmudict !! w).
Proof.
  apply (words_to_phones_needs_every_word Fixture.lower Fixture.cmudict
           ["hello"; "world"] (Indices [0%Z] [1%Z] [])).
  vm_compute. reflexivity.
Defined.

Lemma fixture_entries_pronounced : entries_pronounced Fixture.cmudict.
Proof.
  intros w prons Hw. unfold Fixture.cmudict in Hw.
  repeat (apply lookup_insert_Some in Hw as [[_ <-]|[_ Hw]]; [by eexists _, _, _|]).
  apply lookup_singleton_Some in Hw as [_ <-]. by eexists _, _, _.
Qed.

Lemma words_to_phones_error_names_missing_word_witness :
  ∃ w, w ∈ ["hello"; "xyzzy"] ∧ Fixture.cmudict !! w = None
       ∧ (KeyError "xyzzy" = SystemExit_word w ∨ KeyError "xyzzy" = KeyError w).
Proof.
  apply (words_to_phones_error_names_missing_word Fixture.lower Fixture.cmudict
           ["hello"; "xyzzy"] no_indices (KeyError "xyzzy")).
  - apply fixture_entries_pronounced.
  - vm_compute. reflexivity.
Defined.

(** ** The taper on one unit *)

Section Taper.

Variable taper : nat -> Z -> Z -> Z.

Lemma broadcast_cases (l : list Z) (n : nat) :
  (length l = n ∧ broadcast l n = Ok l)
  ∨ (length l ≠ n ∧ ∃ x, l = [x] ∧ broadcast l n = Ok (replicate n x))
  ∨ (length l ≠ n ∧ length l ≠ 1%nat ∧ broadcast l n = Raise ValueError).
Proof.
  unfold broadcast. destruct (Nat.eqb_spec (length l) n) as [Hl|Hl]; [by left|].
  right. destruct l as [|x [|y l]].
  - right. split; [done|]. split; [simpl; lia|done].
  - left. split; [done|]. by eexists.
  - right. split; [done|]. split; [simpl; lia|done].
Qed.

(** A unit of 10 ms or more, tapered with a full tail. *)
Lemma taper_head_full (data prev : list Z) :
  (ms10 ≤ length data)%nat → length prev = ms10 →
  taper_head taper data prev
  = Ok (imap (fun k cp => taper k cp.1 cp.2) (zip (take ms10 data) prev)
        ++ drop ms10 data).
Proof.
  intros Hdata Hprev. unfold taper_head. cbv zeta. rewrite slice_prefix.
  assert (Hhead : length (take ms10 data) = ms10) by (rewrite length_take; lia).
  unfold broadcast. rewrite Hhead, Hprev, Nat.eqb_refl. cbn [bind].
  rewrite length_imap, length_zip_with, Hhead, Hprev, Nat.min_id, Nat.eqb_refl.
  done.
Qed.

(** What [taper_head] raises is a [ValueError]; it returns for a unit of
    10 ms or more and a tail of 10 ms or of one sample, and only then. *)
Lemma taper_head_cases (data prev : list Z) :
  ((ms10 ≤ length data)%nat ∧ (length prev = ms10 ∨ length prev = 1%nat)
   ∧ is_Ok (taper_head taper data prev))
  ∨ (¬ ((ms10 ≤ length data)%nat ∧ (length prev = ms10 ∨ length prev = 1%nat))
     ∧ taper_head taper data prev = Raise ValueError).
Proof.
  unfold taper_head. cbv zeta. rewrite slice_prefix.
  destruct (broadcast_cases (take ms10 data) ms10)
    as [[Hh ->]|[(Hh & x & Hx & ->)|(Hh & Hh1 & ->)]]; cbn [bind].
  - assert (Hdata : (ms10 ≤ length data)%nat) by (rewrite length_take in Hh; lia).
    destruct (broadcast_cases prev ms10)
      as [[Hp ->]|[(Hp & y & -> & ->)|(Hp & Hp1 & ->)]]; cbn [bind].
    + left. repeat split; [done|by left|].
      rewrite length_imap, length_zip_with, Hh, Hp, Nat.min_id, Nat.eqb_refl.
      by eexists.
    + left. repeat split; [done|by right|].
      rewrite length_imap, length_zip_with, Hh, length_replicate, Nat.min_id,
        Nat.eqb_refl. by eexists.
    + right. split; [|done]. intros [_ [?|?]]; done.
  - assert (Hdata : ¬ (ms10 ≤ length data)%nat).
    { intros Hle. apply Hh. rewrite length_take. lia. }
    right. split; [by intros [? _]|].
    assert (Hlen : ∀ prv, length prv = ms10 →
              (length (imap (fun k cp => taper k cp.1 cp.2)
                            (zip (replicate ms10 x) prv))
               =? length (take ms10 data))%nat = false).
    { intros prv Hprv. rewrite length_imap, length_zip_with, length_replicate, Hprv.
      rewrite Hx. by vm_compute. }
    destruct (broadcast_cases prev ms10)
      as [[Hp ->]|[(Hp & y & -> & ->)|(Hp & Hp1 & ->)]]; cbn [bind]; [| |done].
    + by rewrite Hlen.
    + by rewrite Hlen by apply length_replicate.
  - right. split; [|done]. intros [Hle _]. apply Hh. rewrite length_take. lia.
Qed.

(** X15. The taper of line 370 needs a unit of at least 160 samples and a
    held tail of 160 samples (or of one sample, which numpy broadcasts): it
    returns exactly then, and in every other case it raises a
    [ValueError], as for a unit shorter than 10 ms. *)
Theorem taper_head_returns_iff (data prev : list Z) :
  (is_Ok (taper_head taper data prev)
   ↔ (ms10 ≤ length data)%nat ∧ (length prev = ms10 ∨ length prev = 1%nat))
  ∧ (∀ e, taper_head taper data prev = Raise e → e = ValueError).
Proof.
  destruct (taper_head_cases data prev) as [(Hd & Hp & Hok)|[Hno Hraise]].
  - split; [done|]. intros e He. destruct Hok as [d Hd']. congruence.
  - split; [|intros e He; congruence].
    split; [|done]. intros [d Hd]. congruence.
Qed.

(** X16. With a held tail of 160 samples, the tapered unit keeps its
    length; its sample [k] below 160 is the blend of its own sample [k] and
    sample [k] of the tail, and its samples from 160 on are unchanged. *)
Theorem taper_head_samples (data prev data' : list Z) :
  length prev = ms10 →
  taper_head taper data prev = Ok data' →
  length data' = length data
  ∧ (∀ k c p, data !! k = Some c → prev !! k = Some p →
              data' !! k = Some (taper k c p))
  ∧ (∀ k, (ms10 ≤ k)%nat → data' !! k = data !! k).
Proof.
  intros Hprev Hrun.
  destruct (taper_head_cases data prev) as [(Hdata & _ & _)|[_ Hraise]];
    [|congruence].
  rewrite taper_head_full in Hrun by done. injection Hrun as <-.
  assert (Hwin : length (imap (fun k cp => taper k cp.1 cp.2)
                              (zip (take ms10 data) prev)) = ms10).
  { rewrite length_imap, length_zip_with, length_take. lia. }
  split; [|split].
  - rewrite length_app, length_drop, Hwin. lia.
  - intros k c p Hc Hp. pose proof (lookup_lt_Some _ _ _ Hp) as Hk.
    rewrite lookup_app_l by lia. rewrite list_lookup_imap.
    assert (Hz : zip (take ms10 data) prev !! k = Some (c, p)).
    { apply lookup_zip_with_Some. exists c, p.
      rewrite lookup_take_lt by lia. done. }
    rewrite Hz. done.
  - intros k Hk. rewrite lookup_app_r by lia. rewrite Hwin, lookup_drop.
    f_equal. lia.
Qed.

End Taper.

Lemma taper_head_samples_witness :
  length (Fixture.taper 0 5 7 :: ((fun k => Fixture.taper (S k) 5 7) <$> seq 0 159) ++ [9%Z])
  = length (replicate 160 5%Z ++ [9%Z]).
Proof.
  apply (taper_head_samples Fixture.taper (replicate 160 5%Z ++ [9%Z])
           (replicate 160 7%Z)).
  - reflexivity.
  - vm_compute. reflexivity.
Defined.

(** ** How many diphones a word gets *)

(** X17. In an utterance that is sequenced, a word gets as many diphones
    as its pronunciation has phones, and the first word one more, for its
    leading pause: the word's own phones, each followed by the next sound. *)
Theorem diphones_per_word
    (lower : string -> string) (cmudict : gmap string (list (list string)))
    (words : list string) (ix : indices) (phones : list (list string)) :
  words_to_phones lower cmudict words ix = Ok phones →
  ∃ diphones,
    phones_to_diphones phones = Ok diphones
    ∧ length diphones = length words
    ∧ ∀ i w ph ds, words !! i = Some w → Spec.phones lower cmudict w = Some ph →
        diphones !! i = Some ds →
        length ds = (length ph + if decide (i = 0%nat) then 1 else 0)%nat.
Proof.
  intros Hrun. apply to_option_Ok in Hrun. unfold words_to_phones in Hrun.
  rewrite words_to_phones_loop in Hrun by done.
  destruct (mapM (Spec.boundary_policy lower cmudict words ix)
                 (seq 0 (length words))) as [es|] eqn:Hm; [|done].
  cbn in Hrun. injection Hrun as <-. apply mapM_Some in Hm.
  exists (Spec.adjacent_labels <$> es). split; [|split].
  - unfold phones_to_diphones. apply mapM_pure. intros word _.
    apply word_diphones_spec.
  - rewrite length_fmap. apply Forall2_length in Hm. by rewrite length_seq in Hm.
  - intros i w ph ds Hw Hph Hds. pose proof (lookup_lt_Some _ _ _ Hw) as Hlt.
    rewrite list_lookup_fmap in Hds.
    destruct (Forall2_lookup_l _ _ _ i i Hm) as (e & He & Hpol).
    { apply lookup_seq. lia. }
    rewrite He in Hds. cbn in Hds. injection Hds as <-.
    rewrite adjacent_labels_length.
    unfold Spec.boundary_policy in Hpol. cbv zeta in Hpol.
    rewrite Hw in Hpol. cbn [mbind option_bind] in Hpol. rewrite Hph in Hpol.
    cbn [mbind option_bind] in Hpol.
    destruct (_ ← words !! (i + 1)%nat; _) as [f|];
      repeat case_decide; cbn [mbind option_bind] in Hpol;
      try done; injection Hpol as <-;
      rewrite ?length_app; cbn [length]; rewrite ?length_app; cbn [length];
      try lia.
    all: destruct (decide (Spec.in_pause_set ix i));
      first [lia | exfalso; tauto].
Qed.

Lemma diphones_per_word_witness :
  ∃ diphones,
    phones_to_diphones
      [["pau"; "hh"; "ah"; "l"; "ow"; "pau"]; ["w"; "er"; "l"; "d"; "pau"]]
    = Ok diphones
    ∧ length diphones = length ["hello"; "world"]
    ∧ ∀ i w ph ds, ["hello"; "world"] !! i = Some w →
        Spec.phones Fixture.lower Fixture.cmudict w = Some ph →
        diphones !! i = Some ds →
        length ds = (length ph + if decide (i = 0%nat) then 1 else 0)%nat.
Proof.
  apply (diphones_per_word Fixture.lower Fixture.cmudict ["hello"; "world"]
           (Indices [0%Z] [1%Z] [])).
  vm_compute. reflexivity.
Defined.

(** ** The program *)

Section MainProperties.

Variable lower : string -> string.
Variable word_tokenize : string -> list string.
Variable cmudict : gmap string (list (list string)).
Variable glob_wav : string -> list string.
Variable load : string -> list Z.
Variable rescale : Qc -> list Z -> result (list Z).
Variable taper : nat -> Z -> Z -> Z.
Variable read_from_file : string -> list string.

Local Abbreviation Synth' := (Synth lower word_tokenize cmudict glob_wav load rescale taper).
Local Abbreviation collect := (collect_sentences lower word_tokenize cmudict glob_wav load rescale taper).
Local Abbreviation speak := (speak_sentences lower word_tokenize cmudict glob_wav load rescale taper).
Local Abbreviation main' := (main lower word_tokenize cmudict glob_wav load rescale taper read_from_file).

Lemma Synth_not_volume_exit (a : args) (phrase : string) :
  Synth' a phrase ≠ Aborted SystemExit_volume.
Proof. unfold Synth. by destruct (Synth_init _ _ _ _ _ _ _ a phrase). Qed.

Lemma speak_not_volume_exit (a : args) (sentences : list string) :
  speak a sentences ≠ Aborted SystemExit_volume.
Proof.
  induction sentences as [|s sentences IH]; [done|]. cbn [speak_sentences].
  pose proof (Synth_not_volume_exit a s).
  destruct (Synth' a s) as [?|[]]; done.
Qed.

Lemma collect_not_volume_exit (a : args) (sentences : list string) (out : list Z) :
  collect a sentences out ≠ Aborted SystemExit_volume.
Proof.
  revert out. induction sentences as [|s sentences IH]; intros out; [done|].
  cbn [collect_sentences]. pose proof (Synth_not_volume_exit a s).
  destruct (Synth' a s) as [?|[]]; done.
Qed.

(** X18. The program ends with the exit of [validate_volume] exactly when a
    volume is given that is below 0 or above 100, and then nothing is
    synthesised or saved, whatever the phrase or file. *)
Theorem main_volume_exit (a : args) (src : source) (outfile : option string) :
  main' a src outfile = Aborted SystemExit_volume
  ↔ ∃ volume, arg_volume a = Some volume ∧ (volume < 0 ∨ 100 < volume)%Z.
Proof.
  unfold main, validate_volume. split.
  - destruct (arg_volume a) as [v|].
    + destruct (Z.ltb_spec v 0); destruct (Z.ltb_spec 100 v); cbn [orb];
        try (intros _; exists v; split; [done|lia]).
      destruct src as [phrase|file].
      * pose proof (Synth_not_volume_exit a phrase).
        destruct (Synth' a phrase) as [?|[]]; done.
      * destruct outfile as [saved|].
        -- pose proof (collect_not_volume_exit a (read_from_file file) []).
           destruct (collect a (read_from_file file) []) as [?|[]]; done.
        -- pose proof (speak_not_volume_exit a (read_from_file file)).
           destruct (speak a (read_from_file file)) as [?|[]]; done.
    + destruct src as [phrase|file].
      * pose proof (Synth_not_volume_exit a phrase).
        destruct (Synth' a phrase) as [?|[]]; done.
      * destruct outfile as [saved|].
        -- pose proof (collect_not_volume_exit a (read_from_file file) []).
           destruct (collect a (read_from_file file) []) as [?|[]]; done.
        -- pose proof (speak_not_volume_exit a (read_from_file file)).
           destruct (speak a (read_from_file file)) as [?|[]]; done.
  - intros (v & -> & Hv).
    destruct (Z.ltb_spec v 0); destruct (Z.ltb_spec 100 v); cbn [orb]; (done || lia).
Qed.

Lemma collect_sentences_all (a : args) (sentences : list string)
    (datas : list (list Z)) :
  Forall2 (fun sentence data => Synth' a sentence = Finished data) sentences datas →
  ∀ out, collect a sentences out = Finished (out ++ concat datas).
Proof.
  induction 1 as [|s d sentences datas Hs _ IH]; intros out.
  - cbn. by rewrite app_nil_r.
  - cbn [collect_sentences concat]. rewrite Hs, IH. by rewrite app_assoc.
Qed.

Lemma collect_sentences_abort (a : args) (good rest : list string)
    (datas : list (list Z)) (bad : string) (e : main_exn) :
  Forall2 (fun sentence data => Synth' a sentence = Finished data) good datas →
  Synth' a bad = Aborted e →
  ∀ out, collect a (good ++ bad :: rest) out = Aborted e.
Proof.
  intros Hgood Hbad. induction Hgood as [|s d good datas Hs _ IH]; intros out.
  - cbn [app collect_sentences]. by rewrite Hbad.
  - cbn [app collect_sentences]. by rewrite Hs, IH.
Qed.

(** X19. With [--fromfile] and [--outfile], and a volume that passes, the
    program saves under the output name the samples of the sentences of the
    file one after the other, when every sentence is synthesised; the first
    sentence whose construction raises ends the program with that
    exception, and then nothing is saved. *)
Theorem main_file_to_outfile (a : args) (file saved : string) :
  (∀ volume, arg_volume a = Some volume → (0 ≤ volume ≤ 100)%Z) →
  (∀ datas,
     Forall2 (fun sentence data => Synth' a sentence = Finished data)
             (read_from_file file) datas →
     main' a (FromFile file) (Some saved) = Finished (Some (saved, concat datas)))
  ∧ (∀ good bad rest datas e,
       read_from_file file = good ++ bad :: rest →
       Forall2 (fun sentence data => Synth' a sentence = Finished data) good datas →
       Synth' a bad = Aborted e →
       main' a (FromFile file) (Some saved) = Aborted e).
Proof.
  intros Hvol.
  assert (Hpass : match arg_volume a with
                  | Some volume => validate_volume volume
                  | None => Finished tt
                  end = Finished tt).
  { destruct (arg_volume a) as [v|] eqn:Hv; [|done].
    specialize (Hvol v eq_refl). unfold validate_volume.
    destruct (Z.ltb_spec v 0); destruct (Z.ltb_spec 100 v); cbn [orb]; (done || lia). }
  split.
  - intros datas Hall. unfold main. rewrite Hpass.
    by rewrite (collect_sentences_all a _ datas Hall []).
  - intros good bad rest datas e Hfile Hgood Hbad. unfold main. rewrite Hpass, Hfile.
    by rewrite (collect_sentences_abort a good rest datas bad e Hgood Hbad []).
Qed.

End MainProperties.

Lemma main_file_to_outfile_witness :
  main Fixture.lower Fixture.word_tokenize Fixture.cmudict Fixture.glob_wav
       Fixture.load (Spec.rescale 32767) Fixture.taper
       (fun _ => ["i am"; "I am"])
       (Args false None None "./diphones" false) (FromFile "text.txt")
       (Some "out.wav")
  = Finished (Some ("out.wav",
       concat [concat (Fixture.load <$> Fixture.glob_wav "./diphones");
               concat (Fixture.load <$> Fixture.glob_wav "./diphones")])).
Proof.
  apply (main_file_to_outfile Fixture.lower Fixture.word_tokenize Fixture.cmudict
           Fixture.glob_wav Fixture.load (Spec.rescale 32767) Fixture.taper
           (fun _ => ["i am"; "I am"])
           (Args false None None "./diphones" false) "text.txt" "out.wav").
  - intros volume Hv. discriminate Hv.
  - repeat constructor; vm_compute; reflexivity.
Defined.

(** ** Pauses at the ends of the phoneme lists *)

Lemma last_app_snoc {A} (l1 l2 : list A) (x : A) : last (l1 ++ l2 ++ [x]) = Some x.
Proof. rewrite app_assoc. apply last_snoc. Qed.

(** X20. In the phoneme lists of an utterance, the list of the first word
    starts with the pause, the list of the last word and of every word
    followed by a comma or stop ends with the pause, and the list of any
    other word ends with the first phone of the next word. *)
Theorem phones_pause_boundaries
    (lower : string -> string) (cmudict : gmap string (list (list string)))
    (words : list string) (ix : indices) (phones : list (list string)) :
  words_to_phones lower cmudict words ix = Ok phones →
  ∀ i e, phones !! i = Some e →
    (i = 0%nat → head e = Some "pau")
    ∧ (S i = length words ∨ Spec.in_pause_set ix i → last e = Some "pau")
    ∧ (S i ≠ length words → ¬ Spec.in_pause_set ix i →
       ∃ next f, words !! S i = Some next
                 ∧ (Spec.phones lower cmudict next ≫= Spec.firstPhone) = Some f
                 ∧ last e = Some f).
Proof.
  intros Hrun i e He. apply to_option_Ok in Hrun. unfold words_to_phones in Hrun.
  rewrite words_to_phones_loop in Hrun by done.
  destruct (mapM (Spec.boundary_policy lower cmudict words ix)
                 (seq 0 (length words))) as [es|] eqn:Hm; [|done].
  cbn in Hrun. injection Hrun as <-. apply mapM_Some in Hm.
  destruct (Forall2_lookup_r _ _ _ i e Hm He) as (i' & Hi' & Hpol).
  apply lookup_seq in Hi' as [-> Hlt]. cbn [Nat.add] in Hpol.
  unfold Spec.boundary_policy in Hpol. cbv zeta in Hpol.
  destruct (words !! i) as [w|]; [|done]. cbn [mbind option_bind] in Hpol.
  destruct (Spec.phones lower cmudict w) as [ph|]; [|done].
  cbn [mbind option_bind] in Hpol.
  replace (i + 1)%nat with (S i) in Hpol by lia.
  assert (Hlook : ∀ f, (next_word ← words !! S i;
                        next_ph ← Spec.phones lower cmudict next_word;
                        Spec.firstPhone next_ph) = Some f →
            ∃ next, words !! S i = Some next
                    ∧ (Spec.phones lower cmudict next ≫= Spec.firstPhone) = Some f).
  { intros f Hf. destruct (words !! S i) as [next|]; [|done]. by exists next. }
  destruct (decide (length words = 1%nat)) as [HN|HN]; cbv iota in Hpol.
  { injection Hpol as <-.
    split; [done|]. split; [intros _; apply (last_app_snoc ["pau"])|]. intros Hnl. lia. }
  destruct (decide (i = 0%nat ∧ ¬ Spec.in_pause_set ix i)) as [[Hi Hp]|H2];
    cbv iota in Hpol.
  { destruct (_ ← words !! S i; _) as [f|] eqn:Hf; [|done].
    cbn [mbind option_bind] in Hpol. injection Hpol as <-.
    split; [done|]. split; [intros [?|?]; [lia|tauto]|]. intros _ _.
    destruct (Hlook f eq_refl) as (next & ? & ?).
    exists next, f. repeat split; try done. apply (last_app_snoc ["pau"]). }
  destruct (decide (i = 0%nat ∧ Spec.in_pause_set ix i)) as [[Hi Hp]|H3];
    cbv iota in Hpol.
  { injection Hpol as <-.
    split; [done|]. split; [intros _; apply (last_app_snoc ["pau"])|]. tauto. }
  assert (Hi : i ≠ 0%nat).
  { intros Hi. destruct (decide (Spec.in_pause_set ix i)); tauto. }
  destruct (decide (Spec.in_pause_set ix i ∨ i = (length words - 1)%nat))
    as [H4|H4]; cbv iota in Hpol.
  { injection Hpol as <-.
    split; [done|]. split; [intros _; apply last_snoc|].
    intros Hnl Hnp. destruct H4; [tauto|lia]. }
  destruct (_ ← words !! S i; _) as [f|] eqn:Hf; [|done].
  cbn [mbind option_bind] in Hpol. injection Hpol as <-.
  split; [done|]. split; [intros [?|?]; [lia|tauto]|]. intros _ _.
  destruct (Hlook f eq_refl) as (next & ? & ?).
  exists next, f. repeat split; try done. apply last_snoc.
Qed.

Lemma phones_pause_boundaries_witness :
  (0%nat = 0%nat → head ["pau"; "hh"; "ah"; "l"; "ow"; "w"] = Some "pau")
  ∧ (1%nat = length ["hello"; "world"] ∨ Spec.in_pause_set no_indices 0 →
     last ["pau"; "hh"; "ah"; "l"; "ow"; "w"] = Some "pau")
  ∧ (1%nat ≠ length ["hello"; "world"] → ¬ Spec.in_pause_set no_indices 0 →
     ∃ next f, ["hello"; "world"] !! 1%nat = Some next
               ∧ (Spec.phones Fixture.lower Fixture.cmudict next ≫= Spec.firstPhone)
                 = Some f
               ∧ last ["pau"; "hh"; "ah"; "l"; "ow"; "w"] = Some f).
Proof.
  apply (phones_pause_boundaries Fixture.lower Fixture.cmudict ["hello"; "world"]
           no_indices
           [["pau"; "hh"; "ah"; "l"; "ow"; "w"]; ["w"; "er"; "l"; "d"; "pau"]]
           ltac:(vm_compute; reflexivity) 0 ["pau"; "hh"; "ah"; "l"; "ow"; "w"]).
  reflexivity.
Defined.
